(** * pd_bot: the account-51 card parser (core/parser_51.py)

    A shallow embedding of the ledger-normalisation core of
    [pd_bot/core/parser_51.py] and the properties its specification
    states about it.

    Conventions of the model.
    - A Python [str] is a list of Unicode code points ([str := list N]).
      String literals are written as UTF-8 [string]s and decoded with
      [u].
    - Character classes ([\d], [\w], [\s], [str.lower]) are given on Basic
      Latin and on the Cyrillic block, the alphabet of the ledgers the
      parser reads: [str.lower] maps A-Z and the capitals U+0400..U+042F,
      [\s] and [str.strip] use the full [str.isspace] table.  Code points
      of other scripts are treated as caseless non-word, non-digit
      symbols.
    - A Python [float] amount is an exact rational ([Q]); rounding,
      infinities and overflow are outside the model.  Truthiness of an
      amount is [x != 0].
    - A [datetime.date] is a triple (year, month, day) ordered
      lexicographically; [date_min] is [datetime.date.min].
    - A [dict] keyed by dates is a [gmap]; a raised exception is the
      [Raise] constructor of [exc]. *)

From Stdlib Require Import ZArith NArith QArith Qminmax Qpower List String Ascii Lia Lqa
  Bool.
From stdpp Require Import base option gmap.
Import ListNotations.

Local Open Scope N_scope.

(* ===================================================================== *)
(** * Part I. Definitions                                                 *)
(* ===================================================================== *)

(** ** Python strings as code-point lists *)

Abbreviation chr := N (only parsing).
Abbreviation str := (list N) (only parsing).

Module Utf8.

Definition byte_of (a : ascii) : N := N_of_ascii a.

Fixpoint bytes (s : string) : list N :=
  match s with
  | EmptyString => []
  | String a s' => byte_of a :: bytes s'
  end.

Definition cont (b : N) : N := N.land b 63.

(** Decoder for well-formed UTF-8; a truncated sequence is dropped. *)
Fixpoint decode (l : list N) : list N :=
  match l with
  | [] => []
  | b0 :: r0 =>
      if b0 <? 128 then b0 :: decode r0
      else if b0 <? 224 then
        match r0 with
        | b1 :: r1 => (N.land b0 31 * 64 + cont b1) :: decode r1
        | _ => []
        end
      else if b0 <? 240 then
        match r0 with
        | b1 :: b2 :: r2 =>
            (N.land b0 15 * 4096 + cont b1 * 64 + cont b2) :: decode r2
        | _ => []
        end
      else
        match r0 with
        | b1 :: b2 :: b3 :: r3 =>
            (N.land b0 7 * 262144 + cont b1 * 4096 + cont b2 * 64 + cont b3)
              :: decode r3
        | _ => []
        end
  end.

End Utf8.

(** [u "..."] is the Python string written by the literal. *)
Definition u (s : string) : list N := Utf8.decode (Utf8.bytes s).

Module PyStr.

Definition in_range (lo hi c : N) : bool := (lo <=? c) && (c <=? hi).

Definition is_digit (c : N) : bool := in_range 48 57 c.
Definition is_ascii_upper (c : N) : bool := in_range 65 90 c.
Definition is_ascii_lower (c : N) : bool := in_range 97 122 c.

(** Cyrillic letters: U+0400..U+0481 and U+048A..U+052F. *)
Definition is_cyrillic (c : N) : bool :=
  in_range 1024 1153 c || in_range 1162 1327 c.

(** [\w]: alphanumerics and the underscore. *)
Definition is_word (c : N) : bool :=
  is_digit c || is_ascii_upper c || is_ascii_lower c || (c =? 95)
  || is_cyrillic c.

(** [str.isspace] (also [\s] and the set stripped by [str.strip]). *)
Definition is_space (c : N) : bool :=
  in_range 9 13 c || in_range 28 32 c || (c =? 133) || (c =? 160)
  || (c =? 5760) || in_range 8192 8202 c || (c =? 8232) || (c =? 8233)
  || (c =? 8239) || (c =? 8287) || (c =? 12288).

(** [str.lower] on one code point. *)
Definition lower_chr (c : N) : N :=
  if is_ascii_upper c then c + 32
  else if in_range 1040 1071 c then c + 32
  else if in_range 1024 1039 c then c + 80
  else c.

Definition lower (s : list N) : list N := map lower_chr s.

Fixpoint eqb (a b : list N) : bool :=
  match a, b with
  | [], [] => true
  | x :: a', y :: b' => (x =? y) && eqb a' b'
  | _, _ => false
  end.

Fixpoint startswith (p s : list N) : bool :=
  match p, s with
  | [], _ => true
  | x :: p', y :: s' => (x =? y) && startswith p' s'
  | _ :: _, [] => false
  end.

(** [p in s] *)
Fixpoint contains (p s : list N) : bool :=
  startswith p s ||
  match s with
  | [] => false
  | _ :: s' => contains p s'
  end.

Fixpoint lstrip (s : list N) : list N :=
  match s with
  | c :: s' => if is_space c then lstrip s' else s
  | [] => []
  end.

Definition rstrip (s : list N) : list N := rev (lstrip (rev s)).

Definition strip (s : list N) : list N := rstrip (lstrip s).

(** [s.replace(a, b)] for a one-character [a]; [b] may be empty. *)
Definition replace1 (a : N) (b : list N) (s : list N) : list N :=
  flat_map (fun c => if c =? a then b else [c]) s.

(** [s[:n]] *)
Definition slice_to (n : nat) (s : list N) : list N := firstn n s.

(** [sep.join(parts)] *)
Fixpoint join (sep : list N) (parts : list (list N)) : list N :=
  match parts with
  | [] => []
  | [p] => p
  | p :: ps => p ++ sep ++ join sep ps
  end.

(** Truthiness of a string: non-empty. *)
Definition truthy (s : list N) : bool :=
  match s with [] => false | _ => true end.

Definition endswith (p s : list N) : bool := startswith (rev p) (rev s).

(** [str(n)] for a Python [int]. *)
Fixpoint digits_of_pos (fuel : nat) (n : N) (acc : list N) : list N :=
  match fuel with
  | O => acc
  | S f =>
      let acc' := (48 + n mod 10) :: acc in
      if n <? 10 then acc' else digits_of_pos f (n / 10) acc'
  end.

Definition of_N (n : N) : list N := digits_of_pos (S (N.to_nat (N.log2 n))) n [].

Definition of_Z (z : Z) : list N :=
  match z with
  | Zneg p => 45 :: of_N (Npos p)
  | _ => of_N (Z.to_N z)
  end.

(** Zero-padded decimal of width [w], as [%0wd]. *)
Definition pad0 (w : nat) (n : N) : list N :=
  let d := of_N n in repeat 48 (w - length d) ++ d.

End PyStr.

(** ** Regular expressions, as [re] matches them

    A backtracking matcher in continuation-passing style: alternation
    tries its branches left to right, repetition is greedy, and
    [search] returns the leftmost match. *)

Module Regex.

Inductive re : Type :=
| RChar (p : N -> bool)                  (* one character of a class *)
| RBound                                 (* \b *)
| REps
| RSeq (a b : re)
| RAlt (a b : re)
| RRep (lo : nat) (hi : option nat) (a : re).   (* greedy a{lo,hi} *)

Definition word_at (c : option N) : bool :=
  match c with Some x => PyStr.is_word x | None => false end.

Definition at_boundary (prev : option N) (s : list N) : bool :=
  xorb (word_at prev) (word_at (head s)).

(** The loop of a greedy repetition: [ma] matches the body once, [k]
    is what follows the repetition.  Each turn must consume input, so
    [length s + 1] turns are enough. *)
Definition rep_loop
           (ma : option N -> list N ->
                 (option N -> list N -> option (list N)) -> option (list N))
           (k : option N -> list N -> option (list N))
  : nat -> nat -> option nat -> option N -> list N -> option (list N) :=
  fix rep (fuel : nat) (lo : nat) (hi : option nat)
      (prev : option N) (s : list N) {struct fuel} : option (list N) :=
    match fuel with
    | O => None
    | S fuel' =>
        let stop := match lo with O => k prev s | S _ => None end in
        match hi with
        | Some O => stop
        | _ =>
            match ma prev s
                     (fun prev' s' =>
                        if (length s' <? length s)%nat
                        then rep fuel' (pred lo) (option_map pred hi) prev' s'
                        else None)
            with
            | Some x => Some x
            | None => stop
            end
        end
    end.

(** [rmatch r prev s k]: match [r] at the front of [s] (the character
    before it being [prev]) and hand what is left to [k]; the result
    is what [k] returns on the first split it accepts. *)
Fixpoint rmatch (r : re) (prev : option N) (s : list N)
         (k : option N -> list N -> option (list N)) {struct r}
  : option (list N) :=
  match r with
  | RChar p =>
      match s with
      | c :: s' => if p c then k (Some c) s' else None
      | [] => None
      end
  | RBound => if at_boundary prev s then k prev s else None
  | REps => k prev s
  | RSeq a b => rmatch a prev s (fun prev' s' => rmatch b prev' s' k)
  | RAlt a b =>
      match rmatch a prev s k with
      | Some x => Some x
      | None => rmatch b prev s k
      end
  | RRep lo hi a => rep_loop (rmatch a) k (S (length s)) lo hi prev s
  end.

(** [re.search]: the leftmost match; returns [group(0)]. *)
Fixpoint search_from (r : re) (prev : option N) (s : list N)
  : option (list N) :=
  match rmatch r prev s (fun _ rest => Some rest) with
  | Some rest => Some (firstn (length s - length rest) s)
  | None =>
      match s with
      | [] => None
      | c :: s' => search_from r (Some c) s'
      end
  end.

Definition search (r : re) (s : list N) : option (list N) :=
  search_from r None s.

(** Derived forms. *)
Definition lit (c : N) : re := RChar (N.eqb c).
Definition opt (a : re) : re := RRep 0 (Some 1%nat) a.
Definition star (a : re) : re := RRep 0 None a.
Definition plus (a : re) : re := RRep 1 None a.
Definition exactly (n : nat) (a : re) : re := RRep n (Some n) a.
Definition at_least (n : nat) (a : re) : re := RRep n None a.
Definition digit : re := RChar PyStr.is_digit.

Fixpoint seq (l : list re) : re :=
  match l with
  | [] => REps
  | [a] => a
  | a :: l' => RSeq a (seq l')
  end.

(** A literal word under [re.IGNORECASE]. *)
Definition lit_nocase (w : list N) : re :=
  seq (map (fun c => RChar (fun x => PyStr.lower_chr x =? PyStr.lower_chr c)) w).

(** The character before the position reached after reading [w]. *)
Fixpoint last_chr (prev : option N) (w : list N) : option N :=
  match w with
  | [] => prev
  | c :: w' => last_chr (Some c) w'
  end.

(** What a match is: [matches r prev w s] says that [r] matches the
    word [w] when [prev] is the character before it and [s] the input
    after it. *)
Inductive matches : re -> option N -> list N -> list N -> Prop :=
| m_char p c prev s :
    p c = true -> matches (RChar p) prev [c] s
| m_bound prev s :
    at_boundary prev s = true -> matches RBound prev [] s
| m_eps prev s :
    matches REps prev [] s
| m_seq a b prev w1 w2 s :
    matches a prev w1 (w2 ++ s) ->
    matches b (last_chr prev w1) w2 s ->
    matches (RSeq a b) prev (w1 ++ w2) s
| m_alt_l a b prev w s :
    matches a prev w s -> matches (RAlt a b) prev w s
| m_alt_r a b prev w s :
    matches b prev w s -> matches (RAlt a b) prev w s
| m_rep_stop a hi prev s :
    matches (RRep 0 hi a) prev [] s
| m_rep_more a lo hi prev w1 w2 s :
    hi <> Some O -> w1 <> [] ->
    matches a prev w1 (w2 ++ s) ->
    matches (RRep (pred lo) (option_map pred hi) a) (last_chr prev w1) w2 s ->
    matches (RRep lo hi a) prev (w1 ++ w2) s.

End Regex.

Import Regex.

(** ** Exceptions *)

Inductive pyexn : Type := ValueError | TypeError.

Inductive exc (A : Type) : Type :=
| Ok (a : A)
| Raise (e : pyexn).
Arguments Ok {A} a.
Arguments Raise {A} e.

Definition bind {A B : Type} (c : exc A) (f : A -> exc B) : exc B :=
  match c with
  | Ok a => f a
  | Raise e => Raise e
  end.

(** [try: c  except Exception: h] *)
Definition try_except {A : Type} (c : exc A) (h : exc A) : exc A :=
  match c with
  | Ok a => Ok a
  | Raise _ => h
  end.

#[global] Instance exc_ret : MRet exc := fun A a => Ok a.
#[global] Instance exc_bind : MBind exc := fun A B f c => bind c f.

(** ** Dates *)

Abbreviation date := (N * N * N)%type.

Module Date.

Definition year (d : date) : N := fst (fst d).
Definition month (d : date) : N := snd (fst d).
Definition day (d : date) : N := snd d.

(** [datetime.date.min] *)
Definition min : date := (1, 1, 1).

Definition ltb (a b : date) : bool :=
  (year a <? year b)
  || ((year a =? year b)
      && ((month a <? month b)
          || ((month a =? month b) && (day a <? day b)))).

Definition leb (a b : date) : bool := negb (ltb b a).

Definition eqb (a b : date) : bool :=
  (year a =? year b) && (month a =? month b) && (day a =? day b).

Definition is_leap (y : N) : bool :=
  ((y mod 4 =? 0) && negb (y mod 100 =? 0)) || (y mod 400 =? 0).

Definition days_in_month (y m : N) : N :=
  if m =? 2 then (if is_leap y then 29 else 28)
  else if (m =? 4) || (m =? 6) || (m =? 9) || (m =? 11) then 30
  else 31.

Definition valid (y m d : N) : bool :=
  (1 <=? y) && (y <=? 9999) && (1 <=? m) && (m <=? 12)
  && (1 <=? d) && (d <=? days_in_month y m).

(** [str(d)]: the ISO form YYYY-MM-DD. *)
Definition to_str (d : date) : list N :=
  PyStr.pad0 4 (year d) ++ [45] ++ PyStr.pad0 2 (month d) ++ [45]
    ++ PyStr.pad0 2 (day d).

End Date.

(** ** Cells of the input grid

    A cell is [None], an empty cell ([NaN]), a number (an [int] or a
    [float], carried with the text [str] gives for it), a text or a
    date. *)

Inductive cell : Type :=
| CNone
| CNaN
| CNum (q : Q) (repr : list N)
| CStr (s : list N)
| CDate (d : date).

(** [str(c)] *)
Definition str_of (c : cell) : list N :=
  match c with
  | CNone => u "None"
  | CNaN => u "nan"
  | CNum _ r => r
  | CStr s => s
  | CDate d => Date.to_str d
  end.

(** ** NumericLexer *)

Definition dval (c : N) : N := c - 48.

Definition digits_val (s : list N) : N :=
  fold_left (fun a c => 10 * a + dval c) s 0.

Fixpoint span_digits (s : list N) : list N * list N :=
  match s with
  | c :: s' =>
      if PyStr.is_digit c
      then let (a, b) := span_digits s' in (c :: a, b)
      else ([], s)
  | [] => ([], [])
  end.

Definition pow10 (k : nat) : positive := Pos.pow 10 (Pos.of_nat k).

(** The decimal of integer digits [ip] and fraction digits [fp]. *)
Definition decimal (neg : bool) (ip fp : list N) : Q :=
  let k := length fp in
  let den := match k with O => 1%positive | _ => pow10 k end in
  let m := Z.of_N (digits_val ip * Npos den + digits_val fp) in
  Qmake (if neg then (- m)%Z else m) den.

(** [float(s)] on decimal notation: an optional sign, digits, an
    optional point and digits; anything else is a [ValueError].  (The
    exponent, [inf]/[nan] and underscore forms use letters or [_],
    which a [NUM_RE] token never holds.) *)
Definition py_float (s : list N) : exc Q :=
  let s := PyStr.strip s in
  let '(neg, body) :=
    match s with
    | c :: r =>
        if c =? 45 then (true, r)
        else if c =? 43 then (false, r)
        else (false, s)
    | [] => (false, s)
    end in
  let '(ip, rest) := span_digits body in
  match rest with
  | [] => if PyStr.truthy ip then Ok (decimal neg ip []) else Raise ValueError
  | c :: fp =>
      if (c =? 46) && forallb PyStr.is_digit fp
         && (PyStr.truthy ip || PyStr.truthy fp)
      then Ok (decimal neg ip fp)
      else Raise ValueError
  end.

(** [NUM_RE = \(?-?\d{1,3}(?:[  ]\d{3})*(?:[.,]\d+)?\)?] *)
Definition NUM_RE : re :=
  seq [opt (lit 40); opt (lit 45); RRep 1 (Some 3%nat) digit;
       star (RSeq (RChar (fun c => (c =? 32) || (c =? 160))) (exactly 3 digit));
       opt (RSeq (RChar (fun c => (c =? 46) || (c =? 44))) (plus digit));
       opt (lit 41)].

(** [DATE_RE = \b\d{2}\.\d{2}\.\d{4}\b] *)
Definition DATE_RE : re :=
  seq [RBound; exactly 2 digit; lit 46; exactly 2 digit; lit 46;
       exactly 4 digit; RBound].

(** The normalisation of the matched token (lines 46-47). *)
Definition clean_token (val : list N) : list N :=
  let val := PyStr.replace1 40 [] val in
  let val := PyStr.replace1 41 [] val in
  let val := PyStr.replace1 32 [] val in
  let val := PyStr.replace1 160 [] val in
  PyStr.replace1 44 [46] val.

Definition _num_to_float (s : cell) : exc (option Q) :=
  match s with
  | CNone | CNaN => Ok None
  | CNum q _ => Ok (Some q)
  | _ =>
      let s := PyStr.strip (str_of s) in
      if negb (PyStr.truthy s) then Ok None
      else
        match search NUM_RE (PyStr.replace1 160 [32] s) with
        | None => Ok None
        | Some val =>
            let neg := PyStr.startswith [40] val && PyStr.endswith [41] val in
            let val := clean_token val in
            try_except
              (x ← py_float val;
               mret (Some (if neg then Qopp x else x)))
              (Ok None)
        end
  end.

(** [datetime.strptime(tok, fmt).date()], [fmt] being day.month.year, on a token of
    [DATE_RE]. *)
Definition strptime_dmy (tok : list N) : exc date :=
  match tok with
  | [d1; d2; _; m1; m2; _; y1; y2; y3; y4] =>
      let d := digits_val [d1; d2] in
      let m := digits_val [m1; m2] in
      let y := digits_val [y1; y2; y3; y4] in
      if Date.valid y m d then Ok (y, m, d) else Raise ValueError
  | _ => Raise ValueError
  end.

Definition _parse_date (s : cell) : exc (option date) :=
  match s with
  | CNone => Ok None
  | CDate d => Ok (Some d)
  | _ =>
      match search DATE_RE (str_of s) with
      | None => Ok None
      | Some tok =>
          try_except (d ← strptime_dmy tok; mret (Some d)) (Ok None)
      end
  end.

(** ** Counterparty recovery *)

(** [\b\d{10}\b|\b\d{12}\b] *)
Definition INN_RE : re :=
  RAlt (seq [RBound; exactly 10 digit; RBound])
       (seq [RBound; exactly 12 digit; RBound]).

(** The name class of the second pattern: Latin and Russian letters,
    digits, the double and single quote, the two guillemets, the hyphen
    and [\s]; under IGNORECASE the class is the same set, both cases of
    each range being listed. *)
Definition name_chr (c : N) : bool :=
  PyStr.is_ascii_upper c || PyStr.is_ascii_lower c
  || PyStr.in_range 1040 1071 c || PyStr.in_range 1072 1103 c
  || PyStr.is_digit c || (c =? 34) || (c =? 39) || (c =? 171) || (c =? 187)
  || (c =? 45) || PyStr.is_space c.

(** [(ООО|ЗАО|АО|ИП)\s+[...]{2,}] with [re.IGNORECASE] *)
Definition ORG_RE : re :=
  seq [RAlt (lit_nocase (u "ООО"))
         (RAlt (lit_nocase (u "ЗАО"))
            (RAlt (lit_nocase (u "АО")) (lit_nocase (u "ИП"))));
       plus (RChar PyStr.is_space);
       at_least 2 (RChar name_chr)].

(** The four organisational forms, in lower case. *)
Definition org_forms : list (list N) :=
  [PyStr.lower (u "ООО"); PyStr.lower (u "ЗАО");
   PyStr.lower (u "АО"); PyStr.lower (u "ИП")].

Definition _extract_counterparty_free (text : list N) : option (list N) :=
  match search INN_RE text with
  | Some m => Some (u "ИНН " ++ m)
  | None =>
      match search ORG_RE text with
      | Some m2 => Some (PyStr.strip m2)
      | None => None
      end
  end.

Definition _normalize_counterparty (s : list N) : option (list N) :=
  let s := PyStr.strip s in
  if negb (PyStr.truthy s) then None
  else Some (PyStr.strip s).

(** ** Tables and transactions *)

(** A [DataFrame]: column names and rows of cells; a missing cell reads
    as [NaN]. *)
Record DataFrame : Type := {
  columns : list (list N);
  rows : list (list cell)
}.

(** The role map [colmap]. *)
Record ColMap : Type := {
  c_date : option (list N);
  c_debit : option (list N);
  c_credit : option (list N);
  c_balance : option (list N);
  c_counterparty : option (list N);
  c_description : option (list N)
}.

Record Txn : Type := {
  t_date : option date;
  t_debit : option Q;
  t_credit : option Q;
  t_balance : option Q;
  t_counterparty : option (list N);
  t_description : option (list N)
}.

(** Truthiness of the values a transaction holds. *)
Definition truthy_date (d : option date) : bool :=
  match d with Some _ => true | None => false end.

Definition truthy_amount (x : option Q) : bool :=
  match x with Some q => negb (Qeq_bool q 0) | None => false end.

Definition truthy_text (s : option (list N)) : bool :=
  match s with Some t => PyStr.truthy t | None => false end.

(** [x or 0] on an amount. *)
Definition or0 (x : option Q) : Q :=
  match x with
  | Some q => if Qeq_bool q 0 then 0%Q else q
  | None => 0%Q
  end.

(** Position of a column name in [df.columns]. *)
Fixpoint index_of (c : list N) (cols : list (list N)) : option nat :=
  match cols with
  | [] => None
  | x :: r =>
      if PyStr.eqb x c then Some O
      else option_map S (index_of c r)
  end.

(** [col(name)]: [df[c] if c in df.columns else None], as the index of
    the series in a row. *)
Definition col (df : DataFrame) (c : option (list N)) : option nat :=
  match c with
  | Some c => index_of c (columns df)
  | None => None
  end.

(** [series.iloc[i]] read in the row. *)
Definition iloc (row : list cell) (j : nat) : cell := nth j row CNaN.

(** The line path of [_extract_transactions] (lines 269-280). *)
Definition free_txn (row : list cell) : exc Txn :=
  let line := str_of (iloc row 0) in
  d ← _parse_date (CStr line);
  deb ← (if PyStr.contains (u "деб") (PyStr.lower line)
         then _num_to_float (CStr line) else Ok None);
  cred ← (if PyStr.contains (u "кред") (PyStr.lower line)
          then _num_to_float (CStr line) else Ok None);
  mret {| t_date := d; t_debit := deb; t_credit := cred; t_balance := None;
          t_counterparty := _extract_counterparty_free line;
          t_description := Some (PyStr.slice_to 500 line) |}.

Definition free_keep (t : Txn) : bool :=
  truthy_date (t_date t) || truthy_amount (t_debit t)
  || truthy_amount (t_credit t) || truthy_text (t_counterparty t).

(** Lines 299-303: the counterparty of a table row. *)
Definition row_counterparty (s_cp s_desc : option nat) (row : list cell)
  : option (list N) :=
  let cp := match s_cp with
            | Some j => _normalize_counterparty (str_of (iloc row j))
            | None => None
            end in
  match s_desc with
  | Some j =>
      if negb (truthy_text cp)
      then _extract_counterparty_free (str_of (iloc row j))
      else cp
  | None => cp
  end.

(** Line 304: the description of a table row. *)
Definition row_description (s_desc : option nat) (row : list cell)
  : option (list N) :=
  match s_desc with
  | Some j => Some (PyStr.slice_to 500 (str_of (iloc row j)))
  | None => None
  end.

(** Line 295: the date of a table row, read in the date column or, with
    none, in the text of the whole row. *)
Definition date_of_row (s_date : option nat) (row : list cell)
  : exc (option date) :=
  match s_date with
  | Some j => _parse_date (iloc row j)
  | None => _parse_date (CStr (PyStr.join [32] (map str_of row)))
  end.

(** Lines 296-298: an amount of a table row. *)
Definition amount_of_row (s : option nat) (row : list cell) : exc (option Q) :=
  match s with
  | Some j => _num_to_float (iloc row j)
  | None => Ok None
  end.

(** The table path, one row (lines 295-304). *)
Definition table_txn (df : DataFrame) (colmap : ColMap) (row : list cell)
  : exc Txn :=
  let s_date := col df (c_date colmap) in
  let s_deb := col df (c_debit colmap) in
  let s_cred := col df (c_credit colmap) in
  let s_bal := col df (c_balance colmap) in
  let s_cp := col df (c_counterparty colmap) in
  let s_desc := col df (c_description colmap) in
  d ← date_of_row s_date row;
  deb ← amount_of_row s_deb row;
  cred ← amount_of_row s_cred row;
  bal ← amount_of_row s_bal row;
  mret {| t_date := d; t_debit := deb; t_credit := cred; t_balance := bal;
          t_counterparty := row_counterparty s_cp s_desc row;
          t_description := row_description s_desc row |}.

(** The test of line 307: [any([date, debit, credit, balance,
    counterparty, description])]. *)
Definition table_keep (t : Txn) : bool :=
  truthy_date (t_date t) || truthy_amount (t_debit t)
  || truthy_amount (t_credit t) || truthy_amount (t_balance t)
  || truthy_text (t_counterparty t) || truthy_text (t_description t).

Fixpoint table_loop (df : DataFrame) (colmap : ColMap) (rs : list (list cell))
  : exc (list Txn) :=
  match rs with
  | [] => Ok []
  | row :: rs' =>
      t ← table_txn df colmap row;
      ts ← table_loop df colmap rs';
      mret (if table_keep t then t :: ts else ts)
  end.

(** The sort key [x["date"] or dt.date.min]. *)
Definition date_key (t : Txn) : date :=
  match t_date t with Some d => d | None => Date.min end.

(** [list.sort(key=...)]: a stable sort. *)
Section StableSort.
Context {A : Type} (ltb : A -> A -> bool).

Fixpoint insert_sorted (x : A) (l : list A) : list A :=
  match l with
  | [] => [x]
  | y :: l' => if ltb y x then y :: insert_sorted x l' else x :: l
  end.

Fixpoint stable_sort (l : list A) : list A :=
  match l with
  | [] => []
  | x :: l' => insert_sorted x (stable_sort l')
  end.
End StableSort.

Definition sort_txns (l : list Txn) : list Txn :=
  stable_sort (fun a b => Date.ltb (date_key a) (date_key b)) l.

(** A loop that builds one value per row; an exception ends it. *)
Fixpoint map_exc {A B : Type} (f : A -> exc B) (l : list A) : exc (list B) :=
  match l with
  | [] => Ok []
  | x :: l' =>
      y ← f x;
      ys ← map_exc f l';
      mret (y :: ys)
  end.

(** The test of line 269: one column, named [raw]. *)
Definition is_free_text (df : DataFrame) : bool :=
  (length (columns df) =? 1)%nat && existsb (PyStr.eqb (u "raw")) (columns df).

Definition _extract_transactions (df : DataFrame) (colmap : ColMap)
  : exc (list Txn) :=
  if is_free_text df
  then
    txns ← map_exc free_txn (rows df);
    mret (List.filter free_keep txns)
  else
    txns ← table_loop df colmap (rows df);
    mret (sort_txns txns).

(** ** BalanceReconstructor: [_analyze_balances] *)

(** The marker test of line 378. *)
Definition has_marker (t : Txn) : bool :=
  match t_description t with
  | Some d =>
      PyStr.truthy d
      && (PyStr.contains (u "входящий") (PyStr.lower d)
          || PyStr.contains (u "начальн") (PyStr.lower d))
  | None => false
  end.

(** The loop of lines 377-385, with its [break]. *)
Fixpoint opening_loop (ts : list Txn) : option Q :=
  match ts with
  | [] => None
  | t :: ts' =>
      if has_marker t then
        Some (match t_balance t with
              | Some bal => bal
              | None => (or0 (t_debit t) - or0 (t_credit t))%Q
              end)
      else opening_loop ts'
  end.

Definition opening_balance (txns : list Txn) : Q :=
  match opening_loop (firstn 5 txns) with
  | Some o => o
  | None => 0%Q
  end.

(** The opening balance in the words of the specification: among the
    first 5 transactions, the first one with the marker gives its
    declared balance if present, else its debit minus its credit; with
    none, 0. *)
Definition opening_spec (txns : list Txn) : Q :=
  match List.find has_marker (firstn 5 txns) with
  | Some t =>
      match t_balance t with
      | Some b => b
      | None => (or0 (t_debit t) - or0 (t_credit t))%Q
      end
  | None => 0%Q
  end.

(** [if x: curr += x] and [if x: curr -= x] *)
Definition add_if (curr : Q) (x : option Q) : Q :=
  if truthy_amount x then (curr + default 0%Q x)%Q else curr.

Definition sub_if (curr : Q) (x : option Q) : Q :=
  if truthy_amount x then (curr - default 0%Q x)%Q else curr.

(** One turn of the loop of lines 391-400 on the state [(daily, curr)]. *)
Definition fold_step (st : gmap date Q * Q) (t : Txn) : gmap date Q * Q :=
  let '(daily, curr) := st in
  let curr :=
    match t_balance t with
    | Some b => b
    | None => sub_if (add_if curr (t_debit t)) (t_credit t)
    end in
  (<[date_key t := curr]> daily, curr).

Definition balance_fold (opening : Q) (txns : list Txn) : gmap date Q * Q :=
  fold_left fold_step txns (∅, opening).

Definition daily_of (opening : Q) (txns : list Txn) : gmap date Q :=
  fst (balance_fold opening txns).

(** The running balance in the words of the specification: the declared
    balance when there is one, else the balance so far plus
    (debit or 0) minus (credit or 0). *)
Definition running_step (running : Q) (t : Txn) : Q :=
  match t_balance t with
  | Some b => b
  | None => (running + or0 (t_debit t) - or0 (t_credit t))%Q
  end.

Definition running_spec (opening : Q) (txns : list Txn) : Q :=
  fold_left running_step txns opening.




(** Ordered by the sort key, as [_extract_transactions] leaves a table. *)
Fixpoint sorted_by_date (l : list Txn) : bool :=
  match l with
  | [] => true
  | t :: l' =>
      forallb (fun t' => Date.leb (date_key t) (date_key t')) l'
      && sorted_by_date l'
  end.

(** [d.strftime(year-month)] for a year of four digits, or [unknown]
    for [date.min]. *)
Definition month_key (d : date) : list N :=
  if negb (Date.eqb d Date.min)
  then PyStr.pad0 4 (Date.year d) ++ [45] ++ PyStr.pad0 2 (Date.month d)
  else u "unknown".

(** [sorted(daily)] *)
Definition sorted_keys (daily : gmap date Q) : list date :=
  stable_sort Date.ltb (map fst (map_to_list daily)).

(** Lines 403-408, the month part; a value of the map may be [None]. *)
Definition by_month_end (daily : gmap date Q) : gmap (list N) (option Q) :=
  fold_left (fun acc d => <[month_key d := Some (default 0%Q (daily !! d))]> acc)
            (sorted_keys daily) ∅.

Record Stress : Type := {
  end_balance_after_payment : Q;
  shortfall : Q;
  default_risk : bool
}.

Definition Qltb (a b : Q) : bool := negb (Qle_bool b a).

(** The body of the loop of lines 421-429. *)
Definition stress_entry (monthly_payment : Q) (end_bal : option Q)
  : option Stress :=
  match end_bal with
  | None => None
  | Some b =>
      let after := (b - monthly_payment)%Q in
      Some {| end_balance_after_payment := after;
              shortfall := if Qltb after 0 then Qopp after else 0%Q;
              default_risk := Qltb after 0 |}
  end.

(** Lines 419-429. *)
Definition stress_test (by_month : gmap (list N) (option Q)) (monthly_payment : Q)
  : gmap (list N) Stress :=
  if negb (Qeq_bool monthly_payment 0) && Qltb 0 monthly_payment
  then omap (stress_entry monthly_payment) by_month
  else ∅.

Record Balances : Type := {
  b_daily : gmap date Q;
  b_by_month_end : gmap (list N) (option Q);
  b_stress_test : gmap (list N) Stress
}.

(** [_analyze_balances]; the week map and the minimum, maximum and
    average of the daily values are left out, and [daily] is kept in the
    result. *)
Definition _analyze_balances (txns : list Txn) (monthly_payment : Q) : Balances :=
  let opening := opening_balance txns in
  let daily := daily_of opening txns in
  let bm := by_month_end daily in
  {| b_daily := daily; b_by_month_end := bm;
     b_stress_test := stress_test bm monthly_payment |}.

(** ** ColumnRoleResolver: header pass and the amount fallback *)

(** [find(one_of)] of [_infer_roles]: keywords outermost, columns
    innermost; the answer is [cols[low.index(c)]]. *)
Fixpoint find_col (kw : list N) (low cols all_low : list (list N))
  : option (list N) :=
  match low with
  | [] => None
  | c :: low' =>
      if PyStr.contains kw c
      then match index_of c all_low with
           | Some i => nth_error cols i
           | None => None
           end
      else find_col kw low' cols all_low
  end.

Fixpoint find_role (one_of : list (list N)) (cols : list (list N))
  : option (list N) :=
  match one_of with
  | [] => None
  | kw :: rest =>
      let low := map PyStr.lower cols in
      match find_col kw low cols low with
      | Some c => Some c
      | None => find_role rest cols
      end
  end.

Definition _infer_roles (cols : list (list N)) : ColMap :=
  {| c_date := find_role [u "дата"] cols;
     c_debit := find_role [u "дебет"; u "дт"] cols;
     c_credit := find_role [u "кредит"; u "кт"] cols;
     c_balance := find_role [u "остат"; u "сальдо"] cols;
     c_counterparty :=
       find_role [u "контраг"; u "платель"; u "получат"; u "банк"; u "клиент"] cols;
     c_description := find_role [u "назнач"; u "опис"; u "коммент"; u "основан"] cols |}.

(** [df2.head(200).fillna(empty).astype(str)] *)
Definition sample_of (df : DataFrame) : DataFrame :=
  {| columns := columns df;
     rows := map (map (fun c => match c with
                               | CNone | CNaN => CStr []
                               | _ => CStr (str_of c)
                               end))
                 (firstn 200 (rows df)) |}.

(** A cell that looks like money (line 211). *)
Definition money_like (x : list N) : bool :=
  match search NUM_RE (PyStr.replace1 160 [32] x) with
  | Some _ => true
  | None => false
  end.

Definition score (sample : DataFrame) (j : nat) : nat :=
  length (List.filter (fun row => money_like (str_of (iloc row j))) (rows sample)).

(** Lines 208-214: the columns with a positive score, in column order. *)
Fixpoint candidates_from (sample : DataFrame) (j : nat) (cols : list (list N))
  : list (list N * nat) :=
  match cols with
  | [] => []
  | c :: cols' =>
      let sc := score sample j in
      if (0 <? sc)%nat
      then (c, sc) :: candidates_from sample (S j) cols'
      else candidates_from sample (S j) cols'
  end.

(** [cand.sort(key=score, reverse=True)]: stable, larger scores first. *)
Definition rank (cand : list (list N * nat)) : list (list N * nat) :=
  stable_sort (fun a b => (snd b <? snd a)%nat) cand.

(** The two values the expression after [in] can have. *)
Inductive pyval : Type :=
| VBool (b : bool)
| VList (l : list (list N)).

Definition py_truthy (v : pyval) : bool :=
  match v with
  | VBool b => b
  | VList l => match l with [] => false | _ => true end
  end.

(** [a and b] *)
Definition py_and (a b : pyval) : pyval := if py_truthy a then b else a.

(** [iter(v)]: a [bool] is not iterable. *)
Definition py_iter (v : pyval) : exc (list (list N)) :=
  match v with
  | VList l => Ok l
  | VBool _ => Raise TypeError
  end.

(** [next((c for c in cands if test(c)), None)] *)
Fixpoint next_match (test : list N -> exc bool) (cands : list (list N))
  : exc (option (list N)) :=
  match cands with
  | [] => Ok None
  | c :: cands' =>
      bind (test c)
           (fun b : bool => if b then Ok (Some c) else next_match test cands')
  end.

(** [c != dcol] *)
Definition differs (c : list N) (dcol : option (list N)) : bool :=
  match dcol with
  | Some d => negb (PyStr.eqb c d)
  | None => true
  end.

Definition _guess_amount_cols (sample : DataFrame) (prefer : list N * list N)
  : exc (option (list N) * option (list N)) :=
  let cand := rank (candidates_from sample 0 (columns sample)) in
  let cands := map fst (firstn 3 cand) in
  dcol ← next_match
           (fun c =>
              ps ← py_iter (VList [fst prefer; u "дт"]);
              mret (existsb (fun p => PyStr.contains p (PyStr.lower c)) ps))
           cands;
  ccol ← next_match
           (fun c =>
              ps ← py_iter (py_and (VList [snd prefer; u "кт"])
                                   (VBool (differs c dcol)));
              mret (existsb (fun p => PyStr.contains p (PyStr.lower c)) ps))
           cands;
  let dcol := match dcol, cands with
              | None, c0 :: _ => Some c0
              | _, _ => dcol
              end in
  let ccol := match ccol, cands with
              | None, _ :: c1 :: rest =>
                  if differs c1 dcol then Some c1
                  else match rest with c2 :: _ => Some c2 | [] => None end
              | _, _ => ccol
              end in
  mret (dcol, ccol).

(** [x or y] on a role. *)
Definition or_else (x y : option (list N)) : option (list N) :=
  match x with
  | Some s => if PyStr.truthy s then x else y
  | None => y
  end.

(** Lines 149-152 of [_normalize_and_map_columns]. *)
Definition amount_fallback (colmap : ColMap) (sample : DataFrame) : exc ColMap :=
  match c_debit colmap, c_credit colmap with
  | Some _, Some _ => Ok colmap
  | _, _ =>
      '(dcol, ccol) ← _guess_amount_cols sample (u "дебет", u "кредит");
      mret {| c_date := c_date colmap;
              c_debit := or_else (c_debit colmap) dcol;
              c_credit := or_else (c_credit colmap) ccol;
              c_balance := c_balance colmap;
              c_counterparty := c_counterparty colmap;
              c_description := c_description colmap |}
  end.

(** ** Further definitions *)


(** ** ColumnRoleResolver: the other content fallbacks *)

(** [any(k in c.lower() for k in kws)] *)
Definition has_kw (kws : list (list N)) (c : list N) : bool :=
  existsb (fun k => PyStr.contains k (PyStr.lower c)) kws.

(** The cells of column [j] in which [DATE_RE] is found (line 201). *)
Definition date_hits (sample : DataFrame) (j : nat) : nat :=
  length (List.filter
            (fun row => match search DATE_RE (str_of (iloc row j)) with
                        | Some _ => true
                        | None => false
                        end)
            (rows sample)).

(** The loop of [_guess_date_col] on the state [(best, best_hits)]. *)
Fixpoint guess_date_loop (sample : DataFrame) (j : nat) (cols : list (list N))
         (best : option (list N)) (best_hits : Z) : option (list N) * Z :=
  match cols with
  | [] => (best, best_hits)
  | c :: cols' =>
      let hits := Z.of_nat (date_hits sample j) in
      if (best_hits <? hits)%Z
      then guess_date_loop sample (S j) cols' (Some c) hits
      else guess_date_loop sample (S j) cols' best best_hits
  end.

Definition _guess_date_col (sample : DataFrame) : option (list N) :=
  let '(best, best_hits) :=
    guess_date_loop sample 0 (columns sample) None (-1)%Z in
  if (0 <? best_hits)%Z then best else None.

(** Lines 234-241 of [_guess_balance_col]: the numeric columns whose
    name does not speak of debit or credit. *)
Fixpoint balance_candidates (sample : DataFrame) (j : nat) (cols : list (list N))
  : list (list N * nat) :=
  match cols with
  | [] => []
  | c :: cols' =>
      if has_kw [u "дт"; u "кт"; u "дебет"; u "кредит"] c
      then balance_candidates sample (S j) cols'
      else
        let sc := score sample j in
        if (0 <? sc)%nat
        then (c, sc) :: balance_candidates sample (S j) cols'
        else balance_candidates sample (S j) cols'
  end.

Definition _guess_balance_col (sample : DataFrame) : option (list N) :=
  match List.find (has_kw [u "остат"; u "сальдо"]) (columns sample) with
  | Some c => Some c
  | None =>
      match rank (balance_candidates sample 0 (columns sample)) with
      | (c, _) :: _ => Some c
      | [] => None
      end
  end.

Definition _guess_counterparty_col (sample : DataFrame) : option (list N) :=
  List.find (has_kw [u "контраг"; u "платель"; u "получат"; u "клиент";
                     u "банк"; u "инн"])
            (columns sample).

(** [set(x for x in exclude or [] if x)] *)
Definition exclude_set (exclude : list (option (list N))) : list (list N) :=
  flat_map (fun x => match x with
                     | Some c => if PyStr.truthy c then [c] else []
                     | None => []
                     end) exclude.

Definition _guess_description_col (sample : DataFrame)
           (exclude : list (option (list N))) : option (list N) :=
  List.find (fun c =>
               negb (existsb (PyStr.eqb c) (exclude_set exclude))
               && has_kw [u "назнач"; u "опис"; u "основан";
                          u "назначение платежа"] c)
            (columns sample).

(** Lines 143-158 of [_normalize_and_map_columns]: the header pass and
    then, for each role left unresolved, its content fallback. *)
Definition resolve_roles (df2 : DataFrame) : exc ColMap :=
  let colmap := _infer_roles (columns df2) in
  let sample := sample_of df2 in
  let colmap :=
    {| c_date := match c_date colmap with
                 | None => _guess_date_col sample
                 | Some c => Some c
                 end;
       c_debit := c_debit colmap; c_credit := c_credit colmap;
       c_balance := c_balance colmap;
       c_counterparty := c_counterparty colmap;
       c_description := c_description colmap |} in
  colmap ← amount_fallback colmap sample;
  let balance := match c_balance colmap with
                 | None => _guess_balance_col sample
                 | Some c => Some c
                 end in
  let counterparty := match c_counterparty colmap with
                      | None => _guess_counterparty_col sample
                      | Some c => Some c
                      end in
  let description :=
    match c_description colmap with
    | None => _guess_description_col sample [counterparty]
    | Some c => Some c
    end in
  mret {| c_date := c_date colmap; c_debit := c_debit colmap;
          c_credit := c_credit colmap; c_balance := balance;
          c_counterparty := counterparty; c_description := description |}.

(** ** Text input: [_to_dataframe] and the one-column branch *)

(** The line boundaries of [str.splitlines]. *)
Definition is_linebreak (c : N) : bool :=
  PyStr.in_range 10 13 c || PyStr.in_range 28 30 c || (c =? 133)
  || (c =? 8232) || (c =? 8233).

(** [str.splitlines]: [cur] is the line being read, reversed; a
    carriage return followed by a line feed is one boundary. *)
Fixpoint splitlines_from (cur : list N) (s : list N) : list (list N) :=
  match s with
  | [] => match cur with [] => [] | _ => [rev cur] end
  | c :: s' =>
      if is_linebreak c then
        rev cur ::
            match s' with
            | c' :: s'' =>
                if (c =? 13) && (c' =? 10)
                then splitlines_from [] s''
                else splitlines_from [] s'
            | [] => splitlines_from [] s'
            end
      else splitlines_from (c :: cur) s'
  end.

Definition splitlines (s : list N) : list (list N) := splitlines_from [] s.

(** Line 106: [[l.strip() for l in str(raw).splitlines() if l.strip()]] *)
Definition text_lines (raw : list N) : list (list N) :=
  map PyStr.strip
      (List.filter (fun l => PyStr.truthy (PyStr.strip l)) (splitlines raw)).

(** [_to_dataframe] on a text: one column named [raw], one row a line. *)
Definition _to_dataframe_text (raw : list N) : DataFrame :=
  {| columns := [u "raw"];
     rows := map (fun l => [CStr l]) (text_lines raw) |}.

(** Lines 117-119 of [_normalize_and_map_columns]: a frame of one
    column has it renamed [raw] and gets the role map of a text. *)
Definition normalize_one_column (df : DataFrame) : DataFrame * ColMap :=
  ({| columns := [u "raw"]; rows := rows df |},
   {| c_date := None; c_debit := None; c_credit := None; c_balance := None;
      c_counterparty := None; c_description := Some (u "raw") |}).

(** The transactions [parse] extracts from a text. *)
Definition parse_text_transactions (raw : list N) : exc (list Txn) :=
  let '(df_norm, colmap) := normalize_one_column (_to_dataframe_text raw) in
  _extract_transactions df_norm colmap.

(** ** CashflowAggregator: [_analyze_cashflow] *)

(** [d.strftime(year-month)] for a year of four digits. *)
Definition strftime_ym (d : date) : list N :=
  PyStr.pad0 4 (Date.year d) ++ [45] ++ PyStr.pad0 2 (Date.month d).

(** [sum((t.get(field) or 0) for t in txns)] *)
Definition cash_total (field : Txn -> option Q) (txns : list Txn) : Q :=
  fold_left (fun acc t => (acc + or0 (field t))%Q) txns 0%Q.

(** One turn of the loop of lines 357-364 for one of the two maps:
    [if t.get(field): by_month[m] += t[field]], skipped without a date. *)
Definition month_step (field : Txn -> option Q) (by_month : gmap (list N) Q)
           (t : Txn) : gmap (list N) Q :=
  match t_date t with
  | None => by_month
  | Some d =>
      if truthy_amount (field t)
      then <[strftime_ym d := (default 0%Q (by_month !! strftime_ym d)
                               + default 0%Q (field t))%Q]> by_month
      else by_month
  end.

Definition by_month (field : Txn -> option Q) (txns : list Txn)
  : gmap (list N) Q :=
  fold_left (month_step field) txns ∅.

Record Cashflow : Type := {
  cash_in : Q;
  cash_out : Q;
  delta : Q;
  by_month_in : gmap (list N) Q;
  by_month_out : gmap (list N) Q
}.

Definition _analyze_cashflow (txns : list Txn) : Cashflow :=
  let cin := cash_total t_debit txns in
  let cout := cash_total t_credit txns in
  {| cash_in := cin; cash_out := cout; delta := (cin - cout)%Q;
     by_month_in := by_month t_debit txns;
     by_month_out := by_month t_credit txns |}.

(** The transactions dated in the month [m]. *)
Definition in_month (m : list N) (t : Txn) : bool :=
  match t_date t with
  | Some d => PyStr.eqb (strftime_ym d) m
  | None => false
  end.

(** ** The retry wrapper: [ErrorHandler.run]

    [func i] is the outcome of the [i]-th call of the wrapped function.
    The result is the value returned ([None] when the loop ends without
    a [return]) and the delays slept, in order; logging is left out. *)

Fixpoint run_loop {A : Type} (func : nat -> exc A) (default : A)
         (retries : nat) (todo : nat) (attempt : nat) (delay backoff : Q)
  : option A * list Q :=
  match todo with
  | O => (None, [])
  | S todo' =>
      match func attempt with
      | Ok result => (Some result, [])
      | Raise _ =>
          if (attempt <? retries)%nat
          then
            let '(r, sleeps) :=
              run_loop func default retries todo' (S attempt)
                       (delay * backoff)%Q backoff in
            (r, delay :: sleeps)
          else (Some default, [])
      end
  end.

(** [ErrorHandler(retries, base_delay, backoff).run(func, default=...)]:
    the loop is [for attempt in range(1, retries + 1)]. *)
Definition run {A : Type} (retries : nat) (base_delay backoff : Q)
           (func : nat -> exc A) (default : A) : option A * list Q :=
  run_loop func default retries retries 1 base_delay backoff.

(** The delays of [n] failed attempts that are followed by another. *)
Fixpoint delays (delay backoff : Q) (n : nat) : list Q :=
  match n with
  | O => []
  | S n' => delay :: delays (delay * backoff)%Q backoff n'
  end.

(** The total of a field over transactions, nulls counting as 0. *)
Definition sum_of (field : Txn -> option Q) (txns : list Txn) : Q :=
  fold_right (fun t acc => (or0 (field t) + acc)%Q) 0%Q txns.

(** Dates in ascending order. *)
Fixpoint dates_sorted (l : list date) : bool :=
  match l with
  | [] => true
  | d :: l' => forallb (Date.leb d) l' && dates_sorted l'
  end.

(** ** [_make_unique_headers] *)

(** [f"col_{i}"] *)
Definition col_name (i : nat) : list N := u "col_" ++ PyStr.of_N (N.of_nat i).

(** The loop of lines 166-174 from column [i] on, [todo] columns being
    left; [seen] counts the repeats of each name met. *)
Fixpoint unique_loop (headers : list (list N)) (i todo : nat)
         (seen : gmap (list N) nat) : list (list N) :=
  match todo with
  | O => []
  | S todo' =>
      let base := match nth_error headers i with
                  | Some h => h
                  | None => col_name i
                  end in
      let name := if PyStr.truthy base then base else col_name i in
      match seen !! name with
      | Some k =>
          (name ++ u "_" ++ PyStr.of_N (N.of_nat (S k)))
            :: unique_loop headers (S i) todo' (<[name := S k]> seen)
      | None =>
          name :: unique_loop headers (S i) todo' (<[name := O]> seen)
      end
  end.

Definition _make_unique_headers (headers : list (list N)) (n : nat)
  : list (list N) :=
  unique_loop headers 0 n ∅.

(** ** The summary of the daily balances (lines 410-413)

    The values of [daily] are read in the order of the map; the
    minimum, the maximum and the exact sum do not depend on it. *)




(** [sum(values)] *)
Definition py_sum (vs : list Q) : Q := fold_left Qplus vs 0%Q.



(** ** Counterparties: [_analyze_counterparties]

    A [Counter] is kept as the list of its items in insertion order. *)

(** [counter[cp] += x] *)
Fixpoint counter_add (cp : list N) (x : Q) (c : list (list N * Q))
  : list (list N * Q) :=
  match c with
  | [] => [(cp, (0 + x)%Q)]
  | (k, v) :: c' =>
      if PyStr.eqb k cp then (k, (v + x)%Q) :: c'
      else (k, v) :: counter_add cp x c'
  end.

(** One turn of the loop of lines 439-446 for one of the two counters. *)
Definition flow_step (field : Txn -> option Q) (c : list (list N * Q)) (t : Txn)
  : list (list N * Q) :=
  match t_counterparty t with
  | Some cp =>
      if PyStr.truthy cp && truthy_amount (field t)
      then counter_add cp (default 0%Q (field t)) c
      else c
  | None => c
  end.

Definition flows (field : Txn -> option Q) (txns : list Txn)
  : list (list N * Q) :=
  fold_left (flow_step field) txns [].

(** [counter.most_common(k)]: the [k] largest, earlier items first among
    equals. *)
Definition most_common (k : nat) (c : list (list N * Q)) : list (list N * Q) :=
  firstn k (stable_sort (fun a b => Qltb (snd b) (snd a)) c).

Record Share : Type := {
  s_name : list N;
  s_amount : Q;
  s_share : Q
}.

Record Concentration : Type := {
  top : list Share;
  top1 : Q;
  top3 : Q;
  top5 : Q
}.

(** [top_with_share(counter, total, 5)] *)
Definition top_with_share (c : list (list N * Q)) (total : Q) : Concentration :=
  let res :=
    map (fun item =>
           {| s_name := fst item; s_amount := snd item;
              s_share := if negb (Qeq_bool total 0)
                         then (snd item / total)%Q else 0%Q |})
        (most_common 5 c) in
  {| top := res;
     top1 := match res with r :: _ => s_share r | [] => 0%Q end;
     top3 := py_sum (map s_share (firstn 3 res));
     top5 := py_sum (map s_share (firstn 5 res)) |}.

Definition _analyze_counterparties (txns : list Txn) (cf : Cashflow)
  : Concentration * Concentration :=
  (top_with_share (flows t_debit txns) (cash_in cf),
   top_with_share (flows t_credit txns) (cash_out cf)).

(** The transactions of the counterparty [name]. *)
Definition of_counterparty (name : list N) (t : Txn) : bool :=
  match t_counterparty t with
  | Some cp => PyStr.eqb cp name
  | None => false
  end.

(** Amounts in descending order. *)
Fixpoint amounts_sorted (l : list (list N * Q)) : bool :=
  match l with
  | [] => true
  | x :: l' =>
      forallb (fun y => Qle_bool (snd y) (snd x)) l' && amounts_sorted l'
  end.

(** [counter.get(k)] *)
Fixpoint counter_get (k : list N) (c : list (list N * Q)) : option Q :=
  match c with
  | [] => None
  | (k0, v) :: c' => if PyStr.eqb k0 k then Some v else counter_get k c'
  end.

(** ** [_normalize_and_map_columns] on a table, and [parse] *)

(** A cell after [fillna(empty).astype(str)]. *)
Definition cell_text (c : cell) : list N :=
  match c with
  | CNone | CNaN => []
  | _ => str_of c
  end.

(** Lines 126-127: the number of header keywords found in a row. *)
Definition header_hits (row : list cell) : nat :=
  let row_text := PyStr.lower (PyStr.join [32] (map cell_text row)) in
  length (List.filter (fun k => PyStr.contains k row_text)
                      [u "дата"; u "контраг"; u "дебет"; u "кредит";
                       u "остат"; u "назнач"; u "опис"]).

(** Lines 125-130: the first row with two keywords or more. *)
Fixpoint find_header (i : nat) (preview : list (list cell)) : option nat :=
  match preview with
  | [] => None
  | row :: preview' =>
      if (2 <=? header_hits row)%nat then Some i
      else find_header (S i) preview'
  end.

Definition header_row_idx (rs : list (list cell)) : option nat :=
  find_header 0 (firstn 10 rs).

(** Lines 121-160 for a frame with a first row: on a frame without rows
    [df.iloc[0]] raises [IndexError], so the rows are given as the first
    one and the others.  The header is the row found, or the first row;
    the rows after it are the data. *)
Definition table_frame (ncols : nat) (row0 : list cell)
           (others : list (list cell)) : DataFrame :=
  let rs := row0 :: others in
  let idx := match header_row_idx rs with Some i => i | None => O end in
  let headers :=
    map (fun c => PyStr.lower (PyStr.strip (cell_text c))) (nth idx rs []) in
  {| columns := _make_unique_headers headers ncols;
     rows := skipn (S idx) rs |}.

Definition normalize_table (ncols : nat) (row0 : list cell)
           (others : list (list cell)) : exc (DataFrame * ColMap) :=
  let df2 := table_frame ncols row0 others in
  colmap ← resolve_roles df2;
  mret (df2, colmap).


(** What [parse] is given: a text, a frame of one column, or a frame
    with a first row. *)
Inductive payload : Type :=
| PText (raw : list N)
| POneColumn (rs : list (list cell))
| PTable (ncols : nat) (row0 : list cell) (others : list (list cell)).

Record ParseResult : Type := {
  r_columns : ColMap;
  r_transactions : list Txn;
  r_cashflow : Cashflow;
  r_balances : Balances;
  r_counterparties : Concentration * Concentration
}.

(** The body of [parse] (lines 83-97). *)
Definition parse_body (p : payload) (monthly_payment : Q) : exc ParseResult :=
  '(df_norm, colmap) ←
    match p with
    | PText raw => Ok (normalize_one_column (_to_dataframe_text raw))
    | POneColumn rs =>
        Ok (normalize_one_column {| columns := [u "raw"]; rows := rs |})
    | PTable ncols row0 others =>
        if (ncols =? 1)%nat
        then Ok (normalize_one_column
                   {| columns := [u "raw"]; rows := row0 :: others |})
        else normalize_table ncols row0 others
    end;
  txns ← _extract_transactions df_norm colmap;
  let cashflow := _analyze_cashflow txns in
  mret {| r_columns := colmap; r_transactions := txns;
          r_cashflow := cashflow;
          r_balances := _analyze_balances txns monthly_payment;
          r_counterparties := _analyze_counterparties txns cashflow |}.

(** [parse] under its decorator: two attempts, a delay of one second
    doubled each time, and the empty dictionary, here [None], as the
    default. *)
Definition parse (p : payload) (monthly_payment : Q)
  : option (option ParseResult) * list Q :=
  run 2 1 2
      (fun _ => r ← parse_body p monthly_payment; mret (Some r))
      None.

(* ===================================================================== *)
(** * Part II. Properties                                                 *)
(* ===================================================================== *)

(** ** The matcher finds matches *)

Section RegexSound.

Local Open Scope nat_scope.

Lemma last_chr_app (prev : option N) (w1 w2 : list N) :
  last_chr prev (w1 ++ w2) = last_chr (last_chr prev w1) w2.
Proof.
  revert prev; induction w1 as [|c w1 IH]; intros prev; simpl; auto.
Qed.

(** What it means for a matcher [ma] to implement the expression [a]. *)
Definition sound_for (a : re)
           (ma : option N -> list N ->
                 (option N -> list N -> option (list N)) -> option (list N))
  : Prop :=
  forall prev s k x,
    ma prev s k = Some x ->
    exists w s', s = w ++ s' /\ matches a prev w s'
                 /\ k (last_chr prev w) s' = Some x.

Lemma rep_loop_sound (a : re) ma k :
  sound_for a ma ->
  forall fuel lo hi prev s x,
    rep_loop ma k fuel lo hi prev s = Some x ->
    exists w s', s = w ++ s' /\ matches (RRep lo hi a) prev w s'
                 /\ k (last_chr prev w) s' = Some x.
Proof.
  intros Hma fuel.
  induction fuel as [|fuel IH]; intros lo hi prev s x H; simpl in H.
  - discriminate.
  - assert (Hstop : match lo with O => k prev s | S _ => None end = Some x ->
                    exists w s', s = w ++ s' /\ matches (RRep lo hi a) prev w s'
                                 /\ k (last_chr prev w) s' = Some x).
    { destruct lo; [|discriminate].
      intros Hk. exists [], s. repeat split; auto. constructor. }
    assert (Hmore : hi <> Some O ->
              match ma prev s
                      (fun prev' s' =>
                         if length s' <? length s
                         then rep_loop ma k fuel (pred lo) (option_map pred hi) prev' s'
                         else None)
              with Some x => Some x
              | None => match lo with O => k prev s | S _ => None end
              end = Some x ->
              exists w s', s = w ++ s' /\ matches (RRep lo hi a) prev w s'
                           /\ k (last_chr prev w) s' = Some x).
    { intros Hhi Hm.
      destruct (ma prev s _) as [y|] eqn:E; [|auto].
      inversion Hm; subst y; clear Hm.
      apply Hma in E. destruct E as (w1 & s1 & -> & Hm1 & Hk).
      destruct (length s1 <? length (w1 ++ s1)) eqn:Hlt; [|discriminate].
      apply IH in Hk. destruct Hk as (w2 & s2 & -> & Hm2 & Hk).
      exists (w1 ++ w2), s2. split; [now rewrite <- app_assoc|].
      split; [|now rewrite last_chr_app].
      apply m_rep_more; auto.
      intros ->. simpl in Hlt. apply Nat.ltb_lt in Hlt. lia. }
    destruct hi as [[|h]|]; auto; apply Hmore; congruence.
Qed.

Lemma rmatch_sound (r : re) : sound_for r (rmatch r).
Proof.
  induction r as [p| | |a IHa b IHb|a IHa b IHb|lo hi a IHa];
    intros prev s k x H; simpl in H.
  - destruct s as [|c s']; [discriminate|].
    destruct (p c) eqn:Hp; [|discriminate].
    exists [c], s'. repeat split; auto. now constructor.
  - destruct (at_boundary prev s) eqn:Hb; [|discriminate].
    exists [], s. repeat split; auto. now constructor.
  - exists [], s. repeat split; auto. constructor.
  - apply IHa in H. destruct H as (w1 & s1 & -> & Hm1 & H).
    apply IHb in H. destruct H as (w2 & s2 & -> & Hm2 & H).
    exists (w1 ++ w2), s2. split; [now rewrite <- app_assoc|].
    split; [|now rewrite last_chr_app].
    now constructor.
  - destruct (rmatch a prev s k) as [y|] eqn:E.
    + inversion H; subst y. apply IHa in E.
      destruct E as (w & s' & -> & Hm & Hk).
      exists w, s'. repeat split; auto. now apply m_alt_l.
    + apply IHb in H. destruct H as (w & s' & -> & Hm & Hk).
      exists w, s'. repeat split; auto. now apply m_alt_r.
  - apply (rep_loop_sound a (rmatch a) k IHa (S (length s))). exact H.
Qed.

Lemma search_from_eq (r : re) (prev : option N) (s : list N) :
  search_from r prev s =
  match rmatch r prev s (fun _ rest => Some rest) with
  | Some rest => Some (firstn (length s - length rest) s)
  | None =>
      match s with
      | [] => None
      | c :: s' => search_from r (Some c) s'
      end
  end.
Proof. destruct s; reflexivity. Qed.

Lemma firstn_prefix (w s' : list N) :
  firstn (length (w ++ s') - length s') (w ++ s') = w.
Proof.
  replace (length (w ++ s') - length s') with (length w)
    by (rewrite length_app; lia).
  rewrite firstn_app, Nat.sub_diag, firstn_all. simpl.
  apply app_nil_r.
Qed.

(** [search] returns a piece of the text that the expression matches. *)
Lemma search_from_sound (r : re) (s : list N) :
  forall prev m,
    search_from r prev s = Some m ->
    exists pre post,
      s = pre ++ m ++ post /\ matches r (last_chr prev pre) m post.
Proof.
  induction s as [|c s IH]; intros prev m H; rewrite search_from_eq in H.
  - destruct (rmatch r prev [] _) as [rest|] eqn:E; [|discriminate].
    apply rmatch_sound in E. destruct E as (w & s' & Hs & Hm & Hk).
    inversion Hk; subst rest; clear Hk.
    rewrite Hs, firstn_prefix in H. inversion H; subst m; clear H.
    exists [], s'. split; auto.
  - destruct (rmatch r prev (c :: s) _) as [rest|] eqn:E.
    + apply rmatch_sound in E. destruct E as (w & s' & Hs & Hm & Hk).
      inversion Hk; subst rest; clear Hk.
      rewrite Hs, firstn_prefix in H. inversion H; subst m; clear H.
      exists [], s'. split; auto.
    + apply IH in H. destruct H as (pre & post & -> & Hm).
      exists (c :: pre), post. split; auto.
Qed.

Lemma search_sound (r : re) (s m : list N) :
  search r s = Some m ->
  exists pre post,
    s = pre ++ m ++ post /\ matches r (last_chr None pre) m post.
Proof. apply search_from_sound. Qed.

(** A repetition of one character class. *)
Lemma matches_rep_chars (p : N -> bool) (lo : nat) (hi : option nat)
      (prev : option N) (w s : list N) :
  matches (RRep lo hi (RChar p)) prev w s ->
  forallb p w = true /\ lo <= length w
  /\ match hi with Some h => length w <= h | None => True end.
Proof.
  intros H. remember (RRep lo hi (RChar p)) as r eqn:Hr.
  revert lo hi Hr.
  induction H as [| | | | | |a hi' prev s
                  |a lo' hi' prev w1 w2 s Hhi Hne Hm1 _ Hm2 IH];
    intros lo hi Hr; inversion Hr; subst.
  - simpl. repeat split; auto. destruct hi; auto; lia.
  - inversion Hm1; subst.
    destruct (IH _ _ eq_refl) as (Hall & Hlo & Hh).
    match goal with Hp : p _ = true |- _ => simpl; rewrite Hp, Hall end.
    repeat split; auto; [lia|].
    destruct hi as [[|h]|]; simpl in *; auto; [congruence|lia].
Qed.

End RegexSound.

(** ** Free-text counterparty recovery *)

Section Counterparty.

Local Open Scope nat_scope.

Lemma last_chr_forallb (p : N -> bool) (w : list N) :
  forall prev,
    forallb p w = true -> w <> [] ->
    exists c, last_chr prev w = Some c /\ p c = true.
Proof.
  induction w as [|c w IH]; intros prev Hall Hne; [congruence|].
  simpl in Hall. apply andb_prop in Hall. destruct Hall as [Hc Hw].
  destruct w as [|c' w'].
  - exists c. auto.
  - simpl. apply (IH (Some c)); auto; discriminate.
Qed.

Lemma digit_is_word (c : N) : PyStr.is_digit c = true -> PyStr.is_word c = true.
Proof. intros H. unfold PyStr.is_word. now rewrite H. Qed.

(** A token between two [\b]: [n] digits with no word character on
    either side. *)
Lemma matches_digit_token (n : nat) (prev : option N) (w s : list N) :
  0 < n ->
  matches (RSeq RBound (RSeq (exactly n digit) RBound)) prev w s ->
  length w = n /\ forallb PyStr.is_digit w = true
  /\ word_at prev = false /\ word_at (head s) = false.
Proof.
  intros Hn H.
  inversion H as [| | |a b pv w1 w2 s0 Hb Hrest| | | |]; subst; clear H.
  inversion Hb; subst; clear Hb.
  inversion Hrest as [| | |a b pv w1 w3 s0 Hd He| | | |]; subst; clear Hrest.
  inversion He; subst; clear He.
  apply matches_rep_chars in Hd. destruct Hd as (Hall & Hlo & Hhi).
  simpl in *. rewrite app_nil_r in *.
  assert (Hne : w1 <> []) by (intros ->; simpl in *; lia).
  destruct (last_chr_forallb _ _ prev Hall Hne) as (c & Hlast & Hc).
  rewrite Hlast in *.
  destruct w1 as [|c0 w1']; [congruence|].
  simpl in Hall. apply andb_prop in Hall. destruct Hall as [Hc0 Hall].
  unfold at_boundary in *. simpl in *.
  rewrite (digit_is_word _ Hc0) in *. rewrite (digit_is_word _ Hc) in *.
  repeat split; auto; try lia.
  - simpl. now rewrite Hc0, Hall.
  - now destruct (word_at prev).
  - now destruct (word_at (head s)).
Qed.

Lemma matches_INN (prev : option N) (w s : list N) :
  matches INN_RE prev w s ->
  (length w = 10 \/ length w = 12) /\ forallb PyStr.is_digit w = true
  /\ word_at prev = false /\ word_at (head s) = false.
Proof.
  unfold INN_RE. cbn [seq]. intros H.
  inversion H; subst; clear H;
    match goal with Hm : matches _ _ _ _ |- _ =>
      apply matches_digit_token in Hm; [|lia] end;
    intuition auto.
Qed.

Lemma matches_lit_nocase (l : list N) :
  forall prev w s,
    matches (lit_nocase l) prev w s -> PyStr.lower w = PyStr.lower l.
Proof.
  induction l as [|c l IH]; intros prev w s H.
  - inversion H; subst. reflexivity.
  - destruct l as [|c' l'].
    + inversion H; subst. simpl. f_equal.
      match goal with Hc : (_ =? _)%N = true |- _ =>
        now apply N.eqb_eq in Hc end.
    + change (lit_nocase (c :: c' :: l'))
        with (RSeq (RChar (fun x => (PyStr.lower_chr x =? PyStr.lower_chr c)%N))
                   (lit_nocase (c' :: l'))) in H.
      inversion H as [| | |a b pv w1 w2 s0 Hc Hrest| | | |]; subst; clear H.
      inversion Hc; subst; clear Hc.
      apply IH in Hrest.
      match goal with Hc : (_ =? _)%N = true |- _ =>
        apply N.eqb_eq in Hc; simpl; rewrite Hc end.
      simpl in Hrest. now rewrite Hrest.
Qed.

Lemma matches_ORG (prev : option N) (w s : list N) :
  matches ORG_RE prev w s ->
  exists p sp nm,
    w = p ++ sp ++ nm /\ In (PyStr.lower p) org_forms
    /\ sp <> [] /\ forallb PyStr.is_space sp = true
    /\ 2 <= length nm /\ forallb name_chr nm = true.
Proof.
  unfold ORG_RE. cbn [seq]. intros H.
  inversion H as [| | |a b pv p w2 s0 Hp Hrest| | | |]; subst; clear H.
  inversion Hrest as [| | |a b pv sp nm s0 Hsp Hnm| | | |]; subst; clear Hrest.
  apply matches_rep_chars in Hsp. destruct Hsp as (Hsp & Hlen & _).
  apply matches_rep_chars in Hnm. destruct Hnm as (Hnm & Hlen2 & _).
  exists p, sp, nm. repeat split; auto.
  - unfold org_forms.
    inversion Hp as [| | | |a b pv x s0 H1|a b pv x s0 H1| |]; subst;
      [apply matches_lit_nocase in H1; rewrite H1; simpl; auto|].
    inversion H1 as [| | | |a b pv x s0 H2|a b pv x s0 H2| |]; subst;
      [apply matches_lit_nocase in H2; rewrite H2; simpl; auto|].
    inversion H2 as [| | | |a b pv x s0 H3|a b pv x s0 H3| |]; subst;
      apply matches_lit_nocase in H3; rewrite H3; simpl; auto.
  - intros ->. simpl in Hlen. lia.
Qed.

End Counterparty.

(** C5, as the code has it.  The cascade tries the taxpayer-ID pattern
    first: its match, 10 or 12 digits with no word character on either
    side, is returned behind the label written in the source, the three
    Cyrillic letters [ИНН] and a space.  Otherwise the legal-entity
    pattern is tried: an organisational form in any case, whitespace and
    at least two name characters, returned stripped of surrounding
    whitespace.  Otherwise the result is null.  On the line of scenario B
    the result is the label followed by 7701234567. *)
Theorem counterparty_cascade :
  (forall text : list N,
      match search INN_RE text with
      | Some m =>
          _extract_counterparty_free text = Some (u "ИНН " ++ m)
          /\ (length m = 10 \/ length m = 12)%nat
          /\ forallb PyStr.is_digit m = true
          /\ exists pre post,
              text = pre ++ m ++ post
              /\ word_at (last_chr None pre) = false
              /\ word_at (head post) = false
      | None =>
          match search ORG_RE text with
          | Some m2 =>
              _extract_counterparty_free text = Some (PyStr.strip m2)
              /\ exists pre post p sp nm,
                  text = pre ++ m2 ++ post /\ m2 = p ++ sp ++ nm
                  /\ In (PyStr.lower p) org_forms
                  /\ sp <> [] /\ forallb PyStr.is_space sp = true
                  /\ (2 <= length nm)%nat /\ forallb name_chr nm = true
          | None => _extract_counterparty_free text = None
          end
      end)
  /\ _extract_counterparty_free (u "Поступление от ИНН 7701234567 за услуги")
     = Some (u "ИНН 7701234567").
Proof.
  split; [|vm_compute; reflexivity].
  intros text. unfold _extract_counterparty_free.
  destruct (search INN_RE text) as [m|] eqn:E1.
  - apply search_sound in E1. destruct E1 as (pre & post & Ht & Hm).
    apply matches_INN in Hm. destruct Hm as (Hlen & Hd & Hb & Ha).
    repeat split; auto. exists pre, post. auto.
  - destruct (search ORG_RE text) as [m2|] eqn:E2; [|reflexivity].
    apply search_sound in E2. destruct E2 as (pre & post & Ht & Hm).
    apply matches_ORG in Hm. destruct Hm as (p & sp & nm & Hw & Hrest).
    split; auto. exists pre, post, p, sp, nm. auto.
Qed.

(** C5 as stated fails: on the line of scenario B the label is not the
    Latin [ID]. *)
Lemma counterparty_label_is_not_ID :
  _extract_counterparty_free (u "Поступление от ИНН 7701234567 за услуги")
  <> Some (u "ID 7701234567").
Proof. vm_compute. discriminate. Qed.

(** ** The numeric lexer *)

Section NumericLexer.



Lemma num_to_float_text (s : list N) :
  _num_to_float (CStr s) = Ok None
  \/ exists tok x,
      search NUM_RE (PyStr.replace1 160 [32] (PyStr.strip s)) = Some tok
      /\ py_float (clean_token tok) = Ok x
      /\ _num_to_float (CStr s)
         = Ok (Some (if PyStr.startswith [40] tok && PyStr.endswith [41] tok
                     then Qopp x else x)).
Proof.
  unfold _num_to_float. simpl str_of.
  destruct (negb (PyStr.truthy (PyStr.strip s))); [now left|].
  destruct (search NUM_RE _) as [tok|] eqn:E; [|now left].
  destruct (py_float (clean_token tok)) as [x|e] eqn:F; [|now left].
  right. exists tok, x. auto.
Qed.

Lemma num_to_float_returns (c : cell) : exists r, _num_to_float c = Ok r.
Proof.
  destruct c as [| |q r|s|d]; try (eexists; reflexivity).
  - destruct (num_to_float_text s) as [H|(tok & x & _ & _ & H)];
      rewrite H; eexists; reflexivity.
  - unfold _num_to_float.
    destruct (negb _); [eexists; reflexivity|].
    destruct (search NUM_RE _); [|eexists; reflexivity].
    destruct (py_float _); eexists; reflexivity.
Qed.

Lemma parse_date_returns (c : cell) : exists r, _parse_date c = Ok r.
Proof.
  destruct c as [| |q r|s|d]; try (eexists; reflexivity);
    unfold _parse_date;
    (destruct (search DATE_RE _); [|eexists; reflexivity]);
    destruct (strptime_dmy _); eexists; reflexivity.
Qed.

(** *** A token of [NUM_RE] always parses *)

Lemma replace1_app (a : N) (b x y : list N) :
  PyStr.replace1 a b (x ++ y) = PyStr.replace1 a b x ++ PyStr.replace1 a b y.
Proof. unfold PyStr.replace1. apply flat_map_app. Qed.

Lemma clean_token_app (x y : list N) :
  clean_token (x ++ y) = clean_token x ++ clean_token y.
Proof. unfold clean_token. now rewrite !replace1_app. Qed.

Lemma digit_range (c : N) : PyStr.is_digit c = true -> 48 <= c <= 57.
Proof.
  unfold PyStr.is_digit, PyStr.in_range. intros H.
  apply andb_prop in H. destruct H as [H1 H2].
  apply N.leb_le in H1, H2. lia.
Qed.

Lemma clean_digit (c : N) : PyStr.is_digit c = true -> clean_token [c] = [c].
Proof.
  intros H. apply digit_range in H.
  unfold clean_token, PyStr.replace1. cbn [flat_map app].
  replace (c =? 40) with false by (symmetry; apply N.eqb_neq; lia).
  cbn [flat_map app].
  replace (c =? 41) with false by (symmetry; apply N.eqb_neq; lia).
  cbn [flat_map app].
  replace (c =? 32) with false by (symmetry; apply N.eqb_neq; lia).
  cbn [flat_map app].
  replace (c =? 160) with false by (symmetry; apply N.eqb_neq; lia).
  cbn [flat_map app].
  replace (c =? 44) with false by (symmetry; apply N.eqb_neq; lia).
  reflexivity.
Qed.

Lemma clean_digits (d : list N) :
  forallb PyStr.is_digit d = true -> clean_token d = d.
Proof.
  induction d as [|c d IH]; intros H; [reflexivity|].
  simpl in H. apply andb_prop in H. destruct H as [Hc Hd].
  change (c :: d) with ([c] ++ d).
  now rewrite clean_token_app, clean_digit, IH.
Qed.

(** Digits and the two separators of a group clean to digits. *)
Lemma clean_groups (g : list N) :
  Forall (fun c => PyStr.is_digit c = true \/ c = 32 \/ c = 160) g ->
  forallb PyStr.is_digit (clean_token g) = true.
Proof.
  induction 1 as [|c g Hc _ IH]; [reflexivity|].
  change (c :: g) with ([c] ++ g).
  rewrite clean_token_app, forallb_app, IH, andb_true_r.
  destruct Hc as [Hc|[->| ->]]; [|reflexivity|reflexivity].
  rewrite clean_digit by assumption. simpl. now rewrite Hc.
Qed.

Lemma matches_rep_forall (Q : N -> Prop) (a : re) (lo : nat) (hi : option nat)
      (prev : option N) (w s : list N) :
  (forall prev' w' s', matches a prev' w' s' -> Forall Q w') ->
  matches (RRep lo hi a) prev w s -> Forall Q w.
Proof.
  intros Ha H. remember (RRep lo hi a) as r eqn:Hr.
  revert lo hi Hr.
  induction H as [| | | | | |a' hi' prev s
                  |a' lo' hi' prev w1 w2 s Hhi Hne Hm1 _ Hm2 IH];
    intros lo hi Hr; inversion Hr; subst.
  - constructor.
  - apply Forall_app. split; [now apply (Ha _ _ _ Hm1)|].
    now apply (IH _ _ eq_refl).
Qed.

(** An optional single item: nothing, or one match. *)
Lemma matches_opt (a : re) (prev : option N) (w s : list N) :
  matches (opt a) prev w s -> w = [] \/ matches a prev w s.
Proof.
  unfold opt. intros H.
  inversion H as [| | | | | |? ? ? ?|? ? ? ? w1 w2 ? Hhi Hne Hm1 Hm2]; subst;
    [now left|right].
  inversion Hm2; subst; [|simpl in *; congruence].
  now rewrite app_nil_r in *.
Qed.

Lemma matches_opt_lit (c : N) (prev : option N) (w s : list N) :
  matches (opt (lit c)) prev w s -> w = [] \/ w = [c].
Proof.
  intros H. apply matches_opt in H. destruct H as [->|H]; [now left|right].
  inversion H; subst.
  match goal with Hc : (_ =? _) = true |- _ => apply N.eqb_eq in Hc; now subst end.
Qed.

Ltac inv_seq H w1 w2 Ha Hb :=
  inversion H as [| | |? ? ? w1 w2 ? Ha Hb| | | |]; subst; clear H.

(** The shape of a token: an optional parenthesis, an optional minus,
    one to three digits, groups of a separator and digits, an optional
    fraction behind a point or a comma, an optional parenthesis. *)
Lemma matches_NUM_shape (prev : option N) (w s : list N) :
  matches NUM_RE prev w s ->
  exists lp mn d g f rp,
    w = lp ++ mn ++ d ++ g ++ f ++ rp
    /\ (lp = [] \/ lp = [40]) /\ (mn = [] \/ mn = [45])
    /\ d <> [] /\ forallb PyStr.is_digit d = true
    /\ Forall (fun c => PyStr.is_digit c = true \/ c = 32 \/ c = 160) g
    /\ (f = [] \/ exists pc fd, f = pc :: fd /\ (pc = 46 \/ pc = 44)
                               /\ fd <> [] /\ forallb PyStr.is_digit fd = true)
    /\ (rp = [] \/ rp = [41]).
Proof.
  unfold NUM_RE. cbn [seq]. intros H.
  inv_seq H lp r1 Hlp H1.
  inv_seq H1 mn r2 Hmn H2.
  inv_seq H2 d r3 Hd H3.
  inv_seq H3 g r4 Hg H4.
  inv_seq H4 f rp Hf Hrp.
  exists lp, mn, d, g, f, rp. split; [reflexivity|].
  apply matches_opt_lit in Hlp, Hmn, Hrp.
  apply matches_rep_chars in Hd. destruct Hd as (Hd & Hlen & _).
  repeat split; auto.
  - intros ->. simpl in Hlen. lia.
  - revert Hg. apply matches_rep_forall. clear.
    intros prev w s H. inv_seq H c ds Hc Hds.
    inversion Hc; subst; clear Hc.
    apply matches_rep_chars in Hds. destruct Hds as (Hds & _).
    constructor.
    + match goal with Hc : (_ || _) = true |- _ =>
        apply orb_prop in Hc; destruct Hc as [Hc|Hc];
        apply N.eqb_eq in Hc; auto end.
    + apply List.Forall_forall. intros x Hx. left.
      rewrite forallb_forall in Hds. now apply Hds.
  - apply matches_opt in Hf. destruct Hf as [->|Hf]; [now left|right].
    inv_seq Hf c fd Hc Hfd.
    inversion Hc; subst; clear Hc.
    apply matches_rep_chars in Hfd. destruct Hfd as (Hfd & Hlen' & _).
    exists c0, fd. repeat split; auto.
    + match goal with Hc : (_ || _) = true |- _ =>
        apply orb_prop in Hc; destruct Hc as [Hc|Hc];
        apply N.eqb_eq in Hc; auto end.
    + intros ->. simpl in Hlen'. lia.
Qed.

Lemma digit_not_space (c : N) :
  PyStr.is_digit c = true -> PyStr.is_space c = false.
Proof.
  intros H. apply digit_range in H.
  unfold PyStr.is_space, PyStr.in_range.
  repeat (match goal with
          | |- context [(?a <=? ?b)] => destruct (N.leb_spec a b)
          | |- context [(?a =? ?b)] => destruct (N.eqb_spec a b)
          end; try lia).
  all: reflexivity.
Qed.

Lemma strip_id (s t t' : list N) (c z : N) :
  s = c :: t -> s = t' ++ [z] ->
  PyStr.is_space c = false -> PyStr.is_space z = false ->
  PyStr.strip s = s.
Proof.
  intros Hc Hz Hsc Hsz. unfold PyStr.strip, PyStr.rstrip.
  assert (Hl : PyStr.lstrip s = s) by (rewrite Hc; simpl; now rewrite Hsc).
  rewrite Hl, Hz, rev_app_distr. simpl. rewrite Hsz. simpl.
  now rewrite rev_involutive.
Qed.

Lemma span_digits_app (d r : list N) :
  forallb PyStr.is_digit d = true ->
  match r with [] => True | c :: _ => PyStr.is_digit c = false end ->
  span_digits (d ++ r) = (d, r).
Proof.
  intros Hd Hr. induction d as [|c d IH]; cbn [app forallb] in *.
  - destruct r as [|c r]; auto. cbn [span_digits]. now rewrite Hr.
  - apply andb_prop in Hd. destruct Hd as [Hc Hd].
    cbn [span_digits]. now rewrite Hc, IH.
Qed.

(** [float] accepts an optional minus, digits and an optional
    fraction. *)
Lemma py_float_decimal (mn d f : list N) :
  mn = [] \/ mn = [45] ->
  d <> [] -> forallb PyStr.is_digit d = true ->
  f = [] \/ (exists fd, f = 46 :: fd /\ fd <> []
                        /\ forallb PyStr.is_digit fd = true) ->
  exists x, py_float (mn ++ d ++ f) = Ok x.
Proof.
  intros Hmn Hne Hd Hf.
  (* the last character is a digit *)
  assert (Hlast : exists t' z, mn ++ d ++ f = t' ++ [z]
                               /\ PyStr.is_digit z = true).
  { assert (Hl : forall l, l <> [] -> forallb PyStr.is_digit l = true ->
                           exists l' z, l = l' ++ [z] /\ PyStr.is_digit z = true).
    { intros l Hl Hall. destruct (exists_last Hl) as (l' & z & ->).
      exists l', z. split; auto.
      rewrite forallb_app in Hall. apply andb_prop in Hall.
      destruct Hall as [_ Hz]. simpl in Hz. now rewrite andb_true_r in Hz. }
    destruct Hf as [->|(fd & -> & Hfne & Hfd)].
    - destruct (Hl d Hne Hd) as (l' & z & -> & Hz).
      exists (mn ++ l'), z. rewrite app_nil_r, app_assoc. auto.
    - destruct (Hl fd Hfne Hfd) as (l' & z & -> & Hz).
      exists (mn ++ d ++ 46 :: l'), z. split; auto.
      now rewrite <- !app_assoc. }
  destruct Hlast as (t' & z & Hz & Hzd).
  destruct d as [|c d']; [congruence|].
  simpl in Hd. apply andb_prop in Hd. destruct Hd as [Hc Hd'].
  assert (Hspan : span_digits ((c :: d') ++ f) = (c :: d', f)).
  { apply span_digits_app; [simpl; now rewrite Hc|].
    destruct Hf as [->|(fd & -> & _)]; auto. }
  assert (Hrest : exists x,
             (let '(ip, rest) := span_digits ((c :: d') ++ f) in
              match rest with
              | [] => if PyStr.truthy ip then Ok (decimal true ip [])
                      else Raise ValueError
              | c0 :: fp =>
                  if (c0 =? 46) && forallb PyStr.is_digit fp
                     && (PyStr.truthy ip || PyStr.truthy fp)
                  then Ok (decimal true ip fp) else Raise ValueError
              end) = Ok x
             /\ exists y,
               (let '(ip, rest) := span_digits ((c :: d') ++ f) in
                match rest with
                | [] => if PyStr.truthy ip then Ok (decimal false ip [])
                        else Raise ValueError
                | c0 :: fp =>
                    if (c0 =? 46) && forallb PyStr.is_digit fp
                       && (PyStr.truthy ip || PyStr.truthy fp)
                    then Ok (decimal false ip fp) else Raise ValueError
                end) = Ok y).
  { rewrite Hspan.
    destruct Hf as [->|(fd & -> & _ & Hfd)]; simpl; [eauto|].
    rewrite Hfd. simpl. eauto. }
  destruct Hrest as (x & Hx & y & Hy).
  unfold py_float.
  destruct Hmn as [-> | ->].
  - rewrite (strip_id _ ((d' ++ f)) t' c z); auto using digit_not_space.
    cbn [app]. apply digit_range in Hc.
    replace (c =? 45) with false by (symmetry; apply N.eqb_neq; lia).
    replace (c =? 43) with false by (symmetry; apply N.eqb_neq; lia).
    exists y. exact Hy.
  - rewrite (strip_id _ ((c :: d') ++ f) t' 45 z); auto using digit_not_space.
    cbn [app]. exists x. exact Hx.
Qed.

(** The [except] branch of the lexer is never taken: the cleaned token
    is a decimal that [float] accepts. *)
Lemma py_float_token (prev : option N) (w s : list N) :
  matches NUM_RE prev w s -> exists x, py_float (clean_token w) = Ok x.
Proof.
  intros H. apply matches_NUM_shape in H.
  destruct H as (lp & mn & d & g & f & rp & -> & Hlp & Hmn & Hne & Hd & Hg & Hf & Hrp).
  rewrite !clean_token_app.
  replace (clean_token lp) with (@nil N)
    by (destruct Hlp as [-> | ->]; reflexivity).
  replace (clean_token rp) with (@nil N)
    by (destruct Hrp as [-> | ->]; reflexivity).
  replace (clean_token mn) with mn
    by (destruct Hmn as [-> | ->]; reflexivity).
  rewrite (clean_digits d Hd), app_nil_r. cbn [app].
  rewrite (app_assoc d).
  apply py_float_decimal; auto.
  - destruct d; [congruence|discriminate].
  - rewrite forallb_app, Hd. now apply clean_groups.
  - destruct Hf as [->|(pc & fd & -> & Hpc & Hfne & Hfd)]; [now left|right].
    exists fd. change (pc :: fd) with ([pc] ++ fd).
    rewrite clean_token_app, (clean_digits fd Hfd).
    destruct Hpc as [-> | ->]; auto.
Qed.

End NumericLexer.



(** ** Opening balance and stress test *)

Section Balances.

Lemma opening_loop_find (ts : list Txn) :
  opening_loop ts =
  option_map (fun t => match t_balance t with
                       | Some b => b
                       | None => (or0 (t_debit t) - or0 (t_credit t))%Q
                       end)
             (List.find has_marker ts).
Proof.
  induction ts as [|t ts IH]; simpl; auto.
  destruct (has_marker t); auto.
Qed.

Lemma Qltb_dec (a b : Q) :
  Qltb a b = if Qlt_le_dec a b then true else false.
Proof.
  unfold Qltb. destruct (Qlt_le_dec a b) as [H|H].
  - destruct (Qle_bool b a) eqn:E; auto.
    apply Qle_bool_iff in E. lra.
  - apply Qle_bool_iff in H. now rewrite H.
Qed.

Lemma payment_test (p : Q) :
  negb (Qeq_bool p 0) && Qltb 0 p = if Qlt_le_dec 0 p then true else false.
Proof.
  rewrite Qltb_dec. destruct (Qlt_le_dec 0 p) as [H|H].
  - destruct (Qeq_bool p 0) eqn:E; auto.
    apply Qeq_bool_iff in E. lra.
  - apply andb_false_r.
Qed.

Lemma shortfall_max (after : Q) :
  (if Qltb after 0 then Qopp after else 0%Q) = Qmax 0 (- after).
Proof.
  rewrite Qltb_dec. unfold Qmax, GenericMinMax.gmax.
  destruct (Qlt_le_dec after 0) as [H|H];
    destruct (Qcompare_spec 0 (- after)) as [E|E|E]; auto; lra.
Qed.

Lemma stress_entry_eq (p b : Q) :
  stress_entry p (Some b)
  = Some {| end_balance_after_payment := b - p;
            shortfall := Qmax 0 (- (b - p));
            default_risk := if Qlt_le_dec (b - p) 0 then true else false |}.
Proof.
  unfold stress_entry. now rewrite shortfall_max, Qltb_dec.
Qed.

End Balances.

(** C9.  The opening balance is found as the specification says: the
    first of the first 5 transactions whose description holds an
    opening marker gives its declared balance if it has one, else its
    debit minus its credit (a null counting as 0); without such a
    transaction the opening balance is 0. *)
Theorem opening_balance_spec :
  (forall txns : list Txn, opening_balance txns = opening_spec txns)
  /\ (let row d c b text :=
        {| t_date := None; t_debit := d; t_credit := c; t_balance := b;
           t_counterparty := None; t_description := Some text |} in
      opening_balance [row None None None (u "оплата");
                       row (Some (7 # 1)) None (Some (500 # 1)) (u "Входящий остаток");
                       row None None (Some (900 # 1)) (u "начальное сальдо")]
      = (500 # 1)%Q
      /\ opening_balance [row (Some (300 # 1)) (Some (20 # 1)) None (u "Начальный остаток")]
         = (280 # 1)%Q
      /\ opening_balance [row None None None (u "1"); row None None None (u "2");
                          row None None None (u "3"); row None None None (u "4");
                          row None None None (u "5");
                          row None None (Some (500 # 1)) (u "входящий остаток")]
         = 0%Q).
Proof.
  split.
  - intros txns. unfold opening_balance, opening_spec.
    rewrite opening_loop_find.
    destruct (List.find has_marker (firstn 5 txns)); reflexivity.
  - repeat split; vm_compute; reflexivity.
Qed.

(** C8.  The stress test is empty unless the obligation is greater than
    0; otherwise each month-end balance b gives after = b - payment,
    shortfall = max(0, -after) and default_risk = (after < 0).  A
    balance of 200 under an obligation of 500 gives -300, 300, true. *)
Theorem stress_test_spec :
  (forall (bm : gmap (list N) (option Q)) (p : Q) (k : list N),
      stress_test bm p !! k =
      if Qlt_le_dec 0 p then
        match bm !! k with
        | Some (Some b) =>
            Some {| end_balance_after_payment := b - p;
                    shortfall := Qmax 0 (- (b - p));
                    default_risk := if Qlt_le_dec (b - p) 0 then true else false |}
        | _ => None
        end
      else None)
  /\ stress_test {[ u "2024-01" := Some (200 # 1)%Q ]} (500 # 1) !! u "2024-01"
     = Some {| end_balance_after_payment := (-300 # 1)%Q;
               shortfall := (300 # 1)%Q;
               default_risk := true |}
  /\ b_stress_test
       (_analyze_balances
          [{| t_date := Some (2024, 1, 31); t_debit := None; t_credit := None;
              t_balance := Some (200 # 1)%Q; t_counterparty := None;
              t_description := None |}] (500 # 1)) !! u "2024-01"
     = Some {| end_balance_after_payment := (-300 # 1)%Q;
               shortfall := (300 # 1)%Q;
               default_risk := true |}
  /\ b_stress_test
       (_analyze_balances
          [{| t_date := Some (2024, 1, 31); t_debit := None; t_credit := None;
              t_balance := Some (200 # 1)%Q; t_counterparty := None;
              t_description := None |}] 0) = ∅.
Proof.
  split.
  - intros bm p k. unfold stress_test. rewrite payment_test.
    destruct (Qlt_le_dec 0 p) as [Hp|Hp]; [|apply lookup_empty].
    rewrite lookup_omap.
    destruct (bm !! k) as [[b|]|]; simpl; auto.
    apply stress_entry_eq.
  - repeat split; vm_compute; reflexivity.
Qed.

(** ** The balance fold *)

Section BalanceFold.

Lemma Qplus_0_r_eq (x : Q) : (x + 0)%Q = x.
Proof.
  destruct x as [a b]. unfold Qplus. simpl.
  f_equal; [lia|apply Pos.mul_1_r].
Qed.

Lemma add_if_or0 (curr : Q) (x : option Q) :
  add_if curr x = (curr + or0 x)%Q.
Proof.
  unfold add_if, or0, truthy_amount.
  destruct x as [q|]; simpl; [destruct (Qeq_bool q 0); simpl|];
    auto using eq_sym, Qplus_0_r_eq.
Qed.

Lemma sub_if_or0 (curr : Q) (x : option Q) :
  sub_if curr x = (curr - or0 x)%Q.
Proof.
  unfold sub_if, or0, truthy_amount.
  destruct x as [q|]; simpl; [destruct (Qeq_bool q 0); simpl|]; auto;
    unfold Qminus; change (- 0)%Q with 0%Q; auto using eq_sym, Qplus_0_r_eq.
Qed.

Lemma fold_step_eq (daily : gmap date Q) (curr : Q) (t : Txn) :
  fold_step (daily, curr) t
  = (<[date_key t := running_step curr t]> daily, running_step curr t).
Proof.
  unfold fold_step, running_step.
  destruct (t_balance t); auto.
  now rewrite add_if_or0, sub_if_or0.
Qed.

Lemma fold_snd (l : list Txn) :
  forall daily curr,
    snd (fold_left fold_step l (daily, curr)) = running_spec curr l.
Proof.
  induction l as [|t l IH]; intros daily curr; cbn [fold_left]; auto.
  unfold running_spec; cbn [fold_left]; fold (running_spec (running_step curr t) l).
  rewrite fold_step_eq. apply IH.
Qed.

Lemma fold_lookup_other (k : date) (l : list Txn) :
  forall daily curr,
    (forall t, In t l -> date_key t <> k) ->
    fst (fold_left fold_step l (daily, curr)) !! k = daily !! k.
Proof.
  induction l as [|t l IH]; intros daily curr Hk; cbn [fold_left]; auto.
  rewrite fold_step_eq, IH by (intros; apply Hk; now right).
  apply lookup_insert_ne. apply Hk. now left.
Qed.

Lemma fold_lookup_last (pre : list Txn) (t : Txn) :
  forall daily curr,
    fst (fold_left fold_step (pre ++ [t]) (daily, curr)) !! date_key t
    = Some (running_spec curr (pre ++ [t])).
Proof.
  induction pre as [|t0 pre IH]; intros daily curr;
    unfold running_spec; cbn [fold_left app].
  - rewrite fold_step_eq. cbn [fst]. apply lookup_insert_eq.
  - rewrite fold_step_eq. apply IH.
Qed.

Lemma daily_lookup_split (opening : Q) (pre : list Txn) (t : Txn)
      (post : list Txn) :
  (forall t', In t' post -> date_key t' <> date_key t) ->
  daily_of opening (pre ++ t :: post) !! date_key t
  = Some (running_spec opening (pre ++ [t])).
Proof.
  intros Hpost. unfold daily_of, balance_fold.
  replace (pre ++ t :: post) with ((pre ++ [t]) ++ post)
    by (now rewrite <- app_assoc).
  rewrite fold_left_app.
  destruct (fold_left fold_step (pre ++ [t]) (∅, opening)) as [d c] eqn:E.
  rewrite fold_lookup_other by exact Hpost.
  change d with (fst (d, c)). rewrite <- E.
  apply fold_lookup_last.
Qed.


Lemma ltb_irrefl (d : date) : Date.ltb d d = false.
Proof.
  unfold Date.ltb. rewrite !N.ltb_irrefl. simpl.
  now rewrite !andb_false_r.
Qed.



End BalanceFold.

(** C1, as the code has it.  The running balance starts at the opening
    balance and each transaction sets it to its declared balance when
    there is one, else adds (debit or 0) minus (credit or 0).  Every
    transaction writes the running value into the daily map, a dated one
    under its date and one without a date under the minimum date: the
    entry of a key is the running value after the last transaction with
    that key, and a key no transaction has is absent. *)
Theorem balance_fold_daily (opening : Q) (txns : list Txn) :
  snd (balance_fold opening txns) = running_spec opening txns
  /\ (forall pre t post,
         txns = pre ++ t :: post ->
         (forall t', In t' post -> date_key t' <> date_key t) ->
         daily_of opening txns !! date_key t
         = Some (running_spec opening (pre ++ [t])))
  /\ (forall k,
         (forall t, In t txns -> date_key t <> k) ->
         daily_of opening txns !! k = None)
  /\ (forall t d, In t txns -> t_date t = Some d -> date_key t = d)
  /\ (forall t, In t txns -> t_date t = None -> date_key t = Date.min).
Proof.
  split; [apply fold_snd|].
  split; [intros pre t post -> Hpost; now apply daily_lookup_split|].
  split.
  - intros k Hk. unfold daily_of, balance_fold.
    rewrite fold_lookup_other by exact Hk. apply lookup_empty.
  - split; intros t; unfold date_key; [intros d _ ->|intros _ ->]; reflexivity.
Qed.

Lemma balance_fold_daily_witness :
  let t1 := {| t_date := None; t_debit := Some (100 # 1)%Q; t_credit := None;
               t_balance := None; t_counterparty := None;
               t_description := None |} in
  let t2 := {| t_date := Some (2024, 1, 15); t_debit := None;
               t_credit := Some (40 # 1)%Q; t_balance := None;
               t_counterparty := None; t_description := None |} in
  daily_of 0 [t1; t2] !! Date.min = Some (running_spec 0 [t1])
  /\ daily_of 0 [t1; t2] !! (2024, 1, 15) = Some (running_spec 0 [t1; t2])
  /\ daily_of 0 [t1; t2] !! (2024, 2, 1) = None.
Proof.
  intros t1 t2.
  destruct (balance_fold_daily 0 [t1; t2]) as (_ & Hsplit & Hnone & _).
  split; [|split].
  - apply (Hsplit [] t1 [t2]); [reflexivity|].
    intros t' [<-|[]]. vm_compute. discriminate.
  - apply (Hsplit [t1] t2 []); [reflexivity|]. intros t' [].
  - apply Hnone. intros t [<-|[<-|[]]]; vm_compute; discriminate.
Defined.

(** C1 as stated fails: a transaction without a date is not left out of
    the daily map, it is recorded under the minimum date. *)
Lemma undated_transaction_is_recorded :
  ~ (forall (opening : Q) (txns : list Txn) (k : date),
        (forall t, In t txns -> t_date t <> Some k) ->
        daily_of opening txns !! k = None).
Proof.
  intros H.
  specialize (H 0%Q
                [{| t_date := None; t_debit := Some (100 # 1)%Q;
                    t_credit := None; t_balance := None;
                    t_counterparty := None; t_description := None |}]
                Date.min).
  assert (Hk : daily_of 0
                 [{| t_date := None; t_debit := Some (100 # 1)%Q;
                     t_credit := None; t_balance := None;
                     t_counterparty := None; t_description := None |}]
               !! Date.min = Some (100 # 1)%Q)
    by (vm_compute; reflexivity).
  rewrite H in Hk; [discriminate|].
  intros t [<-|[]]. discriminate.
Qed.




(** ** Transaction extraction *)

Section Extraction.

Lemma free_txn_returns (row : list cell) : exists t, free_txn row = Ok t.
Proof.
  unfold free_txn.
  destruct (parse_date_returns (CStr (str_of (iloc row 0)))) as [d ->].
  destruct (num_to_float_returns (CStr (str_of (iloc row 0)))) as [x Hx].
  cbn [mbind exc_bind bind].
  destruct (PyStr.contains (u "деб") _), (PyStr.contains (u "кред") _);
    rewrite ?Hx; cbn [mbind exc_bind bind]; eexists; reflexivity.
Qed.

Lemma table_txn_fields (df : DataFrame) (colmap : ColMap) (row : list cell) :
  exists d deb cred bal,
    date_of_row (col df (c_date colmap)) row = Ok d
    /\ amount_of_row (col df (c_debit colmap)) row = Ok deb
    /\ amount_of_row (col df (c_credit colmap)) row = Ok cred
    /\ amount_of_row (col df (c_balance colmap)) row = Ok bal
    /\ table_txn df colmap row
       = Ok {| t_date := d; t_debit := deb; t_credit := cred;
               t_balance := bal;
               t_counterparty :=
                 row_counterparty (col df (c_counterparty colmap))
                                  (col df (c_description colmap)) row;
               t_description :=
                 row_description (col df (c_description colmap)) row |}.
Proof.
  assert (Hd : exists d, date_of_row (col df (c_date colmap)) row = Ok d)
    by (unfold date_of_row; destruct (col df (c_date colmap));
        apply parse_date_returns).
  assert (Hn : forall o : option nat, exists x, amount_of_row o row = Ok x)
    by (intros [j|]; [apply num_to_float_returns|eexists; reflexivity]).
  destruct Hd as [d Hd].
  destruct (Hn (col df (c_debit colmap))) as [x1 H1].
  destruct (Hn (col df (c_credit colmap))) as [x2 H2].
  destruct (Hn (col df (c_balance colmap))) as [x3 H3].
  exists d, x1, x2, x3. repeat split; auto.
  unfold table_txn. now rewrite Hd, H1, H2, H3.
Qed.

Lemma table_txn_returns (df : DataFrame) (colmap : ColMap) (row : list cell) :
  exists t, table_txn df colmap row = Ok t.
Proof.
  destruct (table_txn_fields df colmap row) as (d & x1 & x2 & x3 & H).
  eexists. apply H.
Qed.

Lemma map_exc_returns {A B : Type} (f : A -> exc B) (l : list A) :
  (forall x, exists y, f x = Ok y) ->
  exists ys, map_exc f l = Ok ys.
Proof.
  intros Hf. induction l as [|x l [ys IH]]; simpl.
  - eexists; reflexivity.
  - destruct (Hf x) as [y ->]. rewrite IH. eexists; reflexivity.
Qed.

Lemma map_exc_in {A B : Type} (f : A -> exc B) (l : list A) :
  forall ys x y,
    map_exc f l = Ok ys -> In x l -> f x = Ok y -> In y ys.
Proof.
  induction l as [|a l IH]; intros ys x y H Hin Hx; [destruct Hin|].
  simpl in H.
  destruct (f a) as [b|] eqn:Ea; [|discriminate].
  destruct (map_exc f l) as [bs|] eqn:El; [|discriminate].
  inversion H; subst ys; clear H.
  destruct Hin as [->|Hin].
  - left. congruence.
  - right. eapply IH; eauto.
Qed.

(** The loop with its [continue] is the loop followed by a filter. *)
Lemma table_loop_filter (df : DataFrame) (colmap : ColMap)
      (rs : list (list cell)) :
  table_loop df colmap rs
  = (all ← map_exc (table_txn df colmap) rs; mret (List.filter table_keep all)).
Proof.
  induction rs as [|row rs IH]; simpl; auto.
  destruct (table_txn df colmap row) as [t|]; simpl; auto.
  rewrite IH.
  destruct (map_exc (table_txn df colmap) rs); simpl; auto.
Qed.

(** *** The order on dates and the sort *)

Ltac date_order :=
  repeat match goal with d : date |- _ => destruct d as [[? ?] ?] end;
  unfold Date.leb, Date.ltb, Date.eqb, Date.year, Date.month, Date.day;
  cbn [fst snd];
  repeat match goal with
         | |- context [N.ltb ?a ?b] => destruct (N.ltb_spec a b)
         | |- context [N.eqb ?a ?b] => destruct (N.eqb_spec a b)
         end;
  simpl; intros; subst; try discriminate; try reflexivity; try lia.

Lemma leb_trans (a b c : date) :
  Date.leb a b = true -> Date.leb b c = true -> Date.leb a c = true.
Proof. date_order. Qed.

Lemma ltb_leb (a b : date) : Date.ltb a b = true -> Date.leb a b = true.
Proof. date_order. Qed.

Lemma nltb_leb (a b : date) : Date.ltb a b = false -> Date.leb b a = true.
Proof. date_order. Qed.

Lemma date_eqb_eq (a b : date) : Date.eqb a b = true <-> a = b.
Proof.
  split.
  - date_order.
  - intros ->. date_order.
Qed.

Lemma ltb_neq (a b : date) : Date.ltb a b = true -> a <> b.
Proof. intros H ->. rewrite ltb_irrefl in H. discriminate. Qed.

Abbreviation key_ltb := (fun a b : Txn => Date.ltb (date_key a) (date_key b)).

Lemma insert_perm (x : Txn) (l : list Txn) :
  Permutation (insert_sorted key_ltb x l) (x :: l).
Proof.
  induction l as [|y l IH]; simpl; auto.
  destruct (Date.ltb (date_key y) (date_key x)); auto.
  rewrite IH. apply perm_swap.
Qed.

Lemma sort_perm (l : list Txn) : Permutation (sort_txns l) l.
Proof.
  unfold sort_txns. induction l as [|x l IH]; simpl; auto.
  rewrite insert_perm. now constructor.
Qed.

Lemma sort_in (l : list Txn) (t : Txn) : In t (sort_txns l) <-> In t l.
Proof.
  split; apply Permutation_in;
    [apply sort_perm|apply Permutation_sym, sort_perm].
Qed.

Lemma insert_keeps_sorted (x : Txn) (l : list Txn) :
  sorted_by_date l = true ->
  sorted_by_date (insert_sorted key_ltb x l) = true.
Proof.
  induction l as [|y l IH]; intros Hs; simpl; auto.
  simpl in Hs. apply andb_prop in Hs. destruct Hs as [Hall Hs].
  destruct (Date.ltb (date_key y) (date_key x)) eqn:E; simpl.
  - rewrite IH by assumption. rewrite andb_true_r.
    apply forallb_forall. intros z Hz.
    apply (Permutation_in _ (insert_perm x l)) in Hz.
    destruct Hz as [<-|Hz]; [now apply ltb_leb|].
    rewrite forallb_forall in Hall. now apply Hall.
  - rewrite Hall, Hs, (nltb_leb _ _ E). simpl. rewrite andb_true_r.
    apply forallb_forall. intros z Hz.
    rewrite forallb_forall in Hall.
    apply (leb_trans _ (date_key y)); [now apply nltb_leb|now apply Hall].
Qed.

(** The table path leaves the transactions ordered by date, the
    undated ones first. *)
Lemma sort_sorted (l : list Txn) : sorted_by_date (sort_txns l) = true.
Proof.
  unfold sort_txns. induction l as [|x l IH]; simpl; auto.
  now apply insert_keeps_sorted.
Qed.

Lemma insert_stable (k : date) (x : Txn) (l : list Txn) :
  List.filter (fun t => Date.eqb (date_key t) k) (insert_sorted key_ltb x l)
  = List.filter (fun t => Date.eqb (date_key t) k) (x :: l).
Proof.
  induction l as [|y l IH]; auto.
  cbn [insert_sorted].
  destruct (Date.ltb (date_key y) (date_key x)) eqn:E; auto.
  cbn [List.filter] in *. rewrite IH.
  destruct (Date.eqb (date_key y) k) eqn:Ey; auto.
  destruct (Date.eqb (date_key x) k) eqn:Ex; auto.
  apply date_eqb_eq in Ey, Ex. apply ltb_neq in E. congruence.
Qed.

(** The sort is stable: the transactions of one date keep their
    order. *)
Lemma sort_stable (k : date) (l : list Txn) :
  List.filter (fun t => Date.eqb (date_key t) k) (sort_txns l)
  = List.filter (fun t => Date.eqb (date_key t) k) l.
Proof.
  unfold sort_txns. induction l as [|x l IH]; auto.
  cbn [stable_sort]. rewrite insert_stable.
  cbn [List.filter]. now rewrite IH.
Qed.

End Extraction.

(** What [_extract_transactions] returns, on either path. *)
Lemma extract_shape (df : DataFrame) (colmap : ColMap) :
  exists all,
    map_exc (if is_free_text df then free_txn else table_txn df colmap)
            (rows df) = Ok all
    /\ _extract_transactions df colmap
       = Ok (if is_free_text df
             then List.filter free_keep all
             else sort_txns (List.filter table_keep all)).
Proof.
  unfold _extract_transactions. destruct (is_free_text df).
  - destruct (map_exc_returns free_txn (rows df) free_txn_returns) as [all Hall].
    exists all. now rewrite Hall.
  - destruct (map_exc_returns (table_txn df colmap) (rows df)
                              (table_txn_returns df colmap)) as [all Hall].
    exists all. now rewrite table_loop_filter, Hall.
Qed.



(** C6: the line path returns before the sort.  Two lines given in the
    order 2 January, 1 January come out in that order. *)
Theorem free_text_path_not_sorted :
  exists out,
    _extract_transactions
      {| columns := [u "raw"];
         rows := [[CStr (u "02.01.2024 дебет 100")];
                  [CStr (u "01.01.2024 дебет 50")]] |}
      {| c_date := None; c_debit := None; c_credit := None;
         c_balance := None; c_counterparty := None;
         c_description := Some (u "raw") |}
    = Ok out
    /\ map t_date out = [Some (2024, 1, 2); Some (2024, 1, 1)]
    /\ sorted_by_date out = false.
Proof.
  eexists. split; [vm_compute; reflexivity|].
  split; vm_compute; reflexivity.
Qed.

(** On the table path the claim of C6 holds: the output is ordered by
    date with the undated rows first, and rows of one date keep their
    order. *)
Lemma table_path_sorted_stable (df : DataFrame) (colmap : ColMap) :
  is_free_text df = false ->
  exists all out,
    map_exc (table_txn df colmap) (rows df) = Ok all
    /\ _extract_transactions df colmap = Ok out
    /\ sorted_by_date out = true
    /\ forall k,
        List.filter (fun t => Date.eqb (date_key t) k) out
        = List.filter (fun t => Date.eqb (date_key t) k)
                      (List.filter table_keep all).
Proof.
  intros Hfree.
  destruct (extract_shape df colmap) as (all & Hall & Hout).
  rewrite Hfree in *. exists all. eexists.
  split; [exact Hall|]. split; [exact Hout|].
  split; [apply sort_sorted|]. intros k. apply sort_stable.
Qed.

(** ** Empty cells on the table path *)

Section EmptyCells.

Local Open Scope nat_scope.

Lemma iloc_nan (row : list cell) :
  Forall (fun c => c = CNaN) row -> forall j, iloc row j = CNaN.
Proof.
  unfold iloc. induction 1 as [|c row Hc _ IH]; intros [|j]; simpl; auto.
Qed.

(** A match of the date pattern holds a digit. *)
Lemma matches_DATE_digit (prev : option N) (w s : list N) :
  matches DATE_RE prev w s ->
  exists c, In c w /\ PyStr.is_digit c = true.
Proof.
  unfold DATE_RE. cbn [seq]. intros H.
  inversion H as [| | |a b pv w0 w1 s0 Hb Hrest| | | |]; subst; clear H.
  inversion Hrest as [| | |a b pv w2 w3 s0 Hd _| | | |]; subst; clear Hrest.
  apply matches_rep_chars in Hd. destruct Hd as (Hall & Hlo & _).
  destruct w2 as [|c w2]; [simpl in Hlo; lia|].
  simpl in Hall. apply andb_prop in Hall. destruct Hall as [Hc _].
  exists c. split; auto.
  apply in_or_app. right. apply in_or_app. left. now left.
Qed.

Lemma search_DATE_no_digit (s : list N) :
  forallb (fun c => negb (PyStr.is_digit c)) s = true ->
  search DATE_RE s = None.
Proof.
  intros Hs. destruct (search DATE_RE s) as [m|] eqn:E; auto.
  apply search_sound in E. destruct E as (pre & post & -> & Hm).
  apply matches_DATE_digit in Hm. destruct Hm as (c & Hin & Hc).
  rewrite forallb_forall in Hs.
  specialize (Hs c). rewrite Hc in Hs. simpl in Hs.
  exfalso. apply Bool.diff_false_true, Hs.
  apply in_or_app. right. apply in_or_app. now left.
Qed.

Lemma join_nan_no_digit (row : list cell) :
  Forall (fun c => c = CNaN) row ->
  forallb (fun c => negb (PyStr.is_digit c))
          (PyStr.join [32%N] (map str_of row)) = true.
Proof.
  induction 1 as [|c row -> Hrow IH]; auto.
  destruct row as [|c' row']; [vm_compute; reflexivity|].
  change (PyStr.join [32%N] (map str_of (CNaN :: c' :: row')))
    with (u "nan" ++ [32%N] ++ PyStr.join [32%N] (map str_of (c' :: row'))).
  rewrite !forallb_app, IH. vm_compute. reflexivity.
Qed.

Lemma date_of_nan_row (s_date : option nat) (row : list cell) :
  Forall (fun c => c = CNaN) row -> date_of_row s_date row = Ok None.
Proof.
  intros Hrow. unfold date_of_row. destruct s_date as [j|].
  - rewrite iloc_nan by assumption. vm_compute. reflexivity.
  - unfold _parse_date. cbn [str_of].
    now rewrite search_DATE_no_digit by now apply join_nan_no_digit.
Qed.

Lemma amount_of_nan_row (s : option nat) (row : list cell) :
  Forall (fun c => c = CNaN) row -> amount_of_row s row = Ok None.
Proof.
  intros Hrow. unfold amount_of_row. destruct s as [j|]; auto.
  now rewrite iloc_nan.
Qed.

(** An empty cell in the counterparty column reads as the text nan. *)
Lemma counterparty_of_nan (j : nat) (s_desc : option nat) (row : list cell) :
  iloc row j = CNaN ->
  row_counterparty (Some j) s_desc row = Some (u "nan").
Proof.
  intros Hj. unfold row_counterparty. rewrite Hj.
  replace (_normalize_counterparty (str_of CNaN)) with (Some (u "nan"))
    by (vm_compute; reflexivity).
  replace (negb (truthy_text (Some (u "nan")))) with false
    by (vm_compute; reflexivity).
  now destruct s_desc.
Qed.

(** An empty cell in the description column reads as the text nan. *)
Lemma description_of_nan (j : nat) (row : list cell) :
  iloc row j = CNaN -> row_description (Some j) row = Some (u "nan").
Proof.
  intros Hj. unfold row_description. rewrite Hj. vm_compute. reflexivity.
Qed.

Lemma table_keep_text (t : Txn) :
  truthy_text (t_counterparty t) = true
  \/ truthy_text (t_description t) = true ->
  table_keep t = true.
Proof.
  unfold table_keep. intros [-> | ->]; now rewrite ?orb_true_r.
Qed.

End EmptyCells.

(** C10.  On the table path an empty (NaN) cell of the counterparty
    column gives the counterparty nan, and one of the description column
    the description nan.  So a row whose cells are all empty, in a table
    with a counterparty or a description column, is emitted: its date
    and amounts are null and its counterparty or description is nan. *)
Theorem nan_cells_read_as_text :
  (forall df colmap row j,
      col df (c_counterparty colmap) = Some j -> iloc row j = CNaN ->
      exists t, table_txn df colmap row = Ok t
                /\ t_counterparty t = Some (u "nan"))
  /\ (forall df colmap row j,
         col df (c_description colmap) = Some j -> iloc row j = CNaN ->
         exists t, table_txn df colmap row = Ok t
                   /\ t_description t = Some (u "nan"))
  /\ (forall df colmap row,
         is_free_text df = false ->
         In row (rows df) ->
         Forall (fun c => c = CNaN) row ->
         col df (c_counterparty colmap) <> None
         \/ col df (c_description colmap) <> None ->
         exists t out,
           table_txn df colmap row = Ok t
           /\ t_date t = None /\ t_debit t = None /\ t_credit t = None
           /\ t_balance t = None
           /\ (col df (c_counterparty colmap) <> None ->
               t_counterparty t = Some (u "nan"))
           /\ (col df (c_description colmap) <> None ->
               t_description t = Some (u "nan"))
           /\ _extract_transactions df colmap = Ok out
           /\ In t out).
Proof.
  split; [|split].
  - intros df colmap row j Hcol Hj.
    destruct (table_txn_fields df colmap row) as (d & x1 & x2 & x3 & _ & _ & _ & _ & H).
    eexists. split; [exact H|]. cbn [t_counterparty].
    rewrite Hcol. now apply counterparty_of_nan.
  - intros df colmap row j Hcol Hj.
    destruct (table_txn_fields df colmap row) as (d & x1 & x2 & x3 & _ & _ & _ & _ & H).
    eexists. split; [exact H|]. cbn [t_description].
    rewrite Hcol. now apply description_of_nan.
  - intros df colmap row Hfree Hin Hrow Hcols.
    destruct (table_txn_fields df colmap row)
      as (d & x1 & x2 & x3 & Hd & H1 & H2 & H3 & H).
    rewrite date_of_nan_row in Hd by assumption.
    rewrite amount_of_nan_row in H1, H2, H3 by assumption.
    inversion Hd; inversion H1; inversion H2; inversion H3; subst; clear Hd H1 H2 H3.
    assert (Hcp : col df (c_counterparty colmap) <> None ->
                  row_counterparty (col df (c_counterparty colmap))
                                   (col df (c_description colmap)) row
                  = Some (u "nan")).
    { destruct (col df (c_counterparty colmap)) as [j|]; [|congruence].
      intros _. apply counterparty_of_nan. now apply iloc_nan. }
    assert (Hdesc : col df (c_description colmap) <> None ->
                    row_description (col df (c_description colmap)) row
                    = Some (u "nan")).
    { destruct (col df (c_description colmap)) as [j|]; [|congruence].
      intros _. apply description_of_nan. now apply iloc_nan. }
    destruct (extract_shape df colmap) as (all & Hall & Hout).
    rewrite Hfree in Hall, Hout.
    eexists. eexists. split; [exact H|].
    cbn [t_date t_debit t_credit t_balance t_counterparty t_description].
    repeat split; auto. 
    + exact Hout.
    + apply sort_in, filter_In. split.
      * eapply map_exc_in; eauto.
      * apply table_keep_text.
        cbn [t_counterparty t_description].
        destruct Hcols as [Hc|Hc]; [left; rewrite Hcp by assumption
                                   |right; rewrite Hdesc by assumption];
          vm_compute; reflexivity.
Qed.

Lemma nan_cells_read_as_text_witness :
  let df := {| columns := [u "дата"; u "дебет"; u "контрагент"; u "назначение"];
               rows := [[CStr (u "01.01.2024"); CNum 100 (u "100");
                         CStr (u "ООО Ромашка"); CStr (u "оплата")];
                        [CNaN; CNaN; CNaN; CNaN]] |} in
  let cm := _infer_roles (columns df) in
  (exists t, table_txn df cm [CNaN; CNaN; CNaN; CNaN] = Ok t
             /\ t_counterparty t = Some (u "nan"))
  /\ (exists t, table_txn df cm [CNaN; CNaN; CNaN; CNaN] = Ok t
                /\ t_description t = Some (u "nan"))
  /\ exists t out,
      table_txn df cm [CNaN; CNaN; CNaN; CNaN] = Ok t
      /\ t_date t = None /\ t_debit t = None /\ t_credit t = None
      /\ t_balance t = None
      /\ (col df (c_counterparty cm) <> None -> t_counterparty t = Some (u "nan"))
      /\ (col df (c_description cm) <> None -> t_description t = Some (u "nan"))
      /\ _extract_transactions df cm = Ok out
      /\ In t out.
Proof.
  intros df cm.
  destruct nan_cells_read_as_text as (Hcp & Hdesc & Hrow).
  split; [|split].
  - apply (Hcp df cm _ 2%nat); vm_compute; reflexivity.
  - apply (Hdesc df cm _ 3%nat); vm_compute; reflexivity.
  - apply Hrow.
    + vm_compute. reflexivity.
    + right. now left.
    + repeat constructor.
    + left. vm_compute. discriminate.
Defined.

(** ** The amount fallback of the role resolver *)

Section AmountFallback.






End AmountFallback.

(** C3: the content fallback does not yield a result.  The test of the
    credit column iterates over [[prefer[1], kt] and c != dcol], which
    is a [bool], so the call raises [TypeError] as soon as one column
    holds a number.  Here the headers name no debit or credit column,
    the three columns hold numbers, and both [_guess_amount_cols] and
    the fallback step that calls it raise. *)
Theorem guess_amount_cols_type_error :
  let df := {| columns := [u "дата"; u "приход"; u "расход"];
               rows := [[CStr (u "01.01.2024"); CNum 1000 (u "1000"); CNum 0 (u "0")];
                        [CStr (u "15.01.2024"); CNum 0 (u "0"); CNum 400 (u "400")]] |} in
  c_debit (_infer_roles (columns df)) = None
  /\ c_credit (_infer_roles (columns df)) = None
  /\ map snd (candidates_from (sample_of df) 0 (columns df)) = [2; 2; 2]%nat
  /\ _guess_amount_cols (sample_of df) (u "дебет", u "кредит") = Raise TypeError
  /\ amount_fallback (_infer_roles (columns df)) (sample_of df) = Raise TypeError.
Proof.
  intros df. repeat split; vm_compute; reflexivity.
Qed.

(* ===================================================================== *)
(** * Part III. Further properties of the parser                          *)
(* ===================================================================== *)

(** ** The matcher finds a match when there is one *)

Section RegexComplete.

Local Open Scope nat_scope.

(** The matcher only looks at what its continuation returns. *)
Lemma rmatch_ext (r : re) :
  forall prev s k1 k2,
    (forall p s', k1 p s' = k2 p s') ->
    rmatch r prev s k1 = rmatch r prev s k2.
Proof.
  induction r as [p| | |a IHa b IHb|a IHa b IHb|lo hi a IHa];
    intros prev s k1 k2 Hk; cbn [rmatch].
  - destruct s as [|c s']; auto. destruct (p c); auto.
  - destruct (at_boundary prev s); auto.
  - auto.
  - apply IHa. intros p s'. now apply IHb.
  - rewrite (IHa prev s k1 k2 Hk), (IHb prev s k1 k2 Hk). reflexivity.
  - generalize (S (length s)) as fuel. intros fuel.
    revert lo hi prev s.
    induction fuel as [|fuel IH]; intros lo hi prev s; cbn [rep_loop]; auto.
    rewrite Hk.
    rewrite (IHa prev s
               (fun prev' s' =>
                  if length s' <? length s
                  then rep_loop (rmatch a) k1 fuel (pred lo) (option_map pred hi) prev' s'
                  else None)
               (fun prev' s' =>
                  if length s' <? length s
                  then rep_loop (rmatch a) k2 fuel (pred lo) (option_map pred hi) prev' s'
                  else None)).
    + reflexivity.
    + intros p s'. destruct (length s' <? length s); auto.
Qed.

(** More fuel than the input is long changes nothing. *)
Lemma rep_loop_fuel (a : re) (k : option N -> list N -> option (list N)) :
  forall f1 f2 lo hi prev s,
    length s < f1 -> length s < f2 ->
    rep_loop (rmatch a) k f1 lo hi prev s
    = rep_loop (rmatch a) k f2 lo hi prev s.
Proof.
  induction f1 as [|f1 IH]; intros f2 lo hi prev s H1 H2; [lia|].
  destruct f2 as [|f2]; [lia|]. cbn [rep_loop].
  rewrite (rmatch_ext a prev s
             (fun prev' s' =>
                if length s' <? length s
                then rep_loop (rmatch a) k f1 (pred lo) (option_map pred hi) prev' s'
                else None)
             (fun prev' s' =>
                if length s' <? length s
                then rep_loop (rmatch a) k f2 (pred lo) (option_map pred hi) prev' s'
                else None)).
  - reflexivity.
  - intros p s'. destruct (length s' <? length s) eqn:E; auto.
    apply Nat.ltb_lt in E. apply IH; lia.
Qed.

Lemma rmatch_complete (r : re) (prev : option N) (w s : list N) :
  matches r prev w s ->
  forall k x,
    k (last_chr prev w) s = Some x ->
    exists y, rmatch r prev (w ++ s) k = Some y.
Proof.
  induction 1 as [p c prev s Hp|prev s Hb|prev s
                 |a b prev w1 w2 s _ IH1 _ IH2
                 |a b prev w s _ IH|a b prev w s _ IH
                 |a hi prev s
                 |a lo hi prev w1 w2 s Hhi Hne _ IH1 _ IH2];
    intros k x Hk.
  - cbn [rmatch app]. rewrite Hp. eauto.
  - cbn [rmatch app]. rewrite Hb. eauto.
  - cbn [rmatch app]. eauto.
  - cbn [rmatch]. rewrite <- app_assoc.
    destruct (IH2 k x) as [y Hy]; [now rewrite <- last_chr_app|].
    apply (IH1 _ y). exact Hy.
  - cbn [rmatch]. destruct (IH k x Hk) as [y ->]. eauto.
  - cbn [rmatch]. destruct (rmatch a prev (w ++ s) k); eauto.
  - cbn [rmatch rep_loop app].
    destruct hi as [[|h]|]; eauto;
      match goal with |- context [rmatch a prev s ?k'] =>
        destruct (rmatch a prev s k') end; eauto.
  - cbn [rmatch rep_loop].
    destruct (IH2 k x) as [y Hy]; [now rewrite <- last_chr_app|].
    cbn [rmatch] in Hy.
    assert (Hstep : exists z,
               rmatch a prev ((w1 ++ w2) ++ s)
                 (fun prev' s' =>
                    if length s' <? length ((w1 ++ w2) ++ s)
                    then rep_loop (rmatch a) k (length ((w1 ++ w2) ++ s))
                                  (pred lo) (option_map pred hi) prev' s'
                    else None) = Some z).
    { rewrite <- app_assoc. apply (IH1 _ y).
      replace (length (w2 ++ s) <? length (w1 ++ w2 ++ s)) with true.
      - rewrite <- Hy. apply rep_loop_fuel; [|lia].
        rewrite !length_app. destruct w1; [congruence|]. simpl. lia.
      - symmetry. apply Nat.ltb_lt. rewrite !length_app.
        destruct w1; [congruence|]. simpl. lia. }
    destruct Hstep as [z Hz].
    destruct hi as [[|h]|]; [congruence| |]; rewrite Hz; eauto.
Qed.

(** [search] finds a match wherever one starts. *)
Lemma search_from_complete (r : re) (pre m post : list N) :
  forall prev,
    matches r (last_chr prev pre) m post ->
    exists m', search_from r prev (pre ++ m ++ post) = Some m'.
Proof.
  induction pre as [|c pre IH]; intros prev Hm; rewrite search_from_eq.
  - destruct (rmatch_complete r prev m post Hm (fun _ rest => Some rest) post eq_refl)
      as [y Hy].
    cbn [app]. rewrite Hy. eauto.
  - destruct (rmatch r prev _ _); [eauto|].
    cbn [app]. apply IH. exact Hm.
Qed.

End RegexComplete.

(** ** What the lexer takes for a number *)

Section MoneyLike.

Lemma NUM_RE_one_digit (prev : option N) (c : N) (post : list N) :
  PyStr.is_digit c = true -> matches NUM_RE prev [c] post.
Proof.
  intros Hc. unfold NUM_RE. cbn [seq].
  apply (m_seq _ _ prev [] [c] post); [apply m_rep_stop|].
  apply (m_seq _ _ prev [] [c] post); [apply m_rep_stop|].
  apply (m_seq _ _ prev [c] [] post).
  - apply (m_rep_more _ _ _ prev [c] [] post); try discriminate.
    + now constructor.
    + apply m_rep_stop.
  - apply (m_seq _ _ _ [] [] post); [apply m_rep_stop|].
    apply (m_seq _ _ _ [] [] post); apply m_rep_stop.
Qed.

Lemma space_not_digit (c : N) :
  PyStr.is_space c = true -> PyStr.is_digit c = false.
Proof.
  intros Hs. destruct (PyStr.is_digit c) eqn:E; auto.
  apply digit_not_space in E. congruence.
Qed.

Lemma existsb_digit_lstrip (s : list N) :
  existsb PyStr.is_digit (PyStr.lstrip s) = existsb PyStr.is_digit s.
Proof.
  induction s as [|c s IH]; auto. cbn [PyStr.lstrip existsb].
  destruct (PyStr.is_space c) eqn:E; auto.
  now rewrite IH, (space_not_digit c E).
Qed.

Lemma existsb_rev_eq (p : N -> bool) (s : list N) :
  existsb p (rev s) = existsb p s.
Proof.
  induction s as [|c s IH]; auto. cbn [rev existsb].
  rewrite existsb_app, IH. cbn [existsb]. rewrite orb_false_r. apply orb_comm.
Qed.

Lemma existsb_digit_strip (s : list N) :
  existsb PyStr.is_digit (PyStr.strip s) = existsb PyStr.is_digit s.
Proof.
  unfold PyStr.strip, PyStr.rstrip.
  now rewrite existsb_rev_eq, existsb_digit_lstrip, existsb_rev_eq,
    existsb_digit_lstrip.
Qed.

Lemma existsb_digit_nbsp (s : list N) :
  existsb PyStr.is_digit (PyStr.replace1 160 [32] s) = existsb PyStr.is_digit s.
Proof.
  induction s as [|c s IH]; auto.
  change (c :: s) with ([c] ++ s).
  rewrite replace1_app, !existsb_app, IH. f_equal.
  unfold PyStr.replace1. cbn [flat_map app].
  destruct (N.eqb_spec c 160) as [->|]; reflexivity.
Qed.

(** [NUM_RE] is found in a text exactly when the text holds a digit. *)
Lemma search_NUM_digit (x : list N) :
  match search NUM_RE x with Some _ => true | None => false end
  = existsb PyStr.is_digit x.
Proof.
  destruct (search NUM_RE x) as [m|] eqn:E.
  - symmetry. apply search_sound in E. destruct E as (pre & post & -> & Hm).
    apply matches_NUM_shape in Hm.
    destruct Hm as (lp & mn & d & g & f & rp & -> & _ & _ & Hne & Hd & _).
    destruct d as [|c d]; [congruence|].
    cbn [forallb] in Hd. apply andb_prop in Hd. destruct Hd as [Hc _].
    apply existsb_exists. exists c. split; auto.
    apply in_or_app. right. apply in_or_app. left.
    apply in_or_app. right. apply in_or_app. right.
    apply in_or_app. left. now left.
  - destruct (existsb PyStr.is_digit x) eqn:D; auto.
    apply existsb_exists in D. destruct D as (c & Hin & Hc).
    apply in_split in Hin. destruct Hin as (pre & post & ->).
    destruct (search_from_complete NUM_RE pre [c] post None
                (NUM_RE_one_digit _ c post Hc)) as [m' Hm'].
    unfold search in E. cbn [app] in Hm'. congruence.
Qed.

Lemma money_like_digit (x : list N) :
  money_like x = existsb PyStr.is_digit x.
Proof.
  unfold money_like.
  rewrite <- (existsb_digit_nbsp x). apply search_NUM_digit.
Qed.

End MoneyLike.

(** X1.  A text lexes to a number exactly when it holds a digit, and
    that is also all the money test of the role resolver asks of a
    cell. *)
Theorem number_iff_digit (s : list N) :
  money_like s = existsb PyStr.is_digit s
  /\ match _num_to_float (CStr s) with
     | Ok (Some _) => existsb PyStr.is_digit s = true
     | Ok None => existsb PyStr.is_digit s = false
     | Raise _ => False
     end.
Proof.
  split; [apply money_like_digit|].
  unfold _num_to_float. cbn [str_of].
  rewrite <- (existsb_digit_strip s).
  destruct (PyStr.strip s) as [|c t]; [reflexivity|].
  cbn [PyStr.truthy negb].
  rewrite <- (existsb_digit_nbsp (c :: t)), <- search_NUM_digit.
  destruct (search NUM_RE _) as [tok|] eqn:E; [|reflexivity].
  apply search_sound in E. destruct E as (pre & post & _ & Hm).
  apply py_float_token in Hm. destruct Hm as [x ->]. reflexivity.
Qed.

Section AmountColumns.

Local Open Scope nat_scope.



End AmountColumns.





(** X4.  The date lexer never raises, and a date it reads in a text is a
    date of the calendar, written in the text as day.month.year: a token
    such as 31.02.2024 gives null. *)
Theorem parse_date_valid :
  (forall c : cell, exists r, _parse_date c = Ok r)
  /\ (forall (s : list N) (d : date),
         _parse_date (CStr s) = Ok (Some d) ->
         Date.valid (Date.year d) (Date.month d) (Date.day d) = true
         /\ exists pre tok post,
             s = pre ++ tok ++ post /\ strptime_dmy tok = Ok d
             /\ length tok = 10%nat)
  /\ _parse_date (CStr (u "31.02.2024")) = Ok None.
Proof.
  split; [exact parse_date_returns|]. split; [|vm_compute; reflexivity].
  intros s d H. unfold _parse_date in H. cbn [str_of] in H.
  destruct (search DATE_RE s) as [tok|] eqn:E; [|discriminate].
  apply search_sound in E. destruct E as (pre & post & -> & _).
  destruct (strptime_dmy tok) as [d'|e] eqn:Ed; [|discriminate].
  inversion H; subst d'; clear H.
  assert (Hv : Date.valid (Date.year d) (Date.month d) (Date.day d) = true
               /\ length tok = 10%nat).
  { unfold strptime_dmy in Ed.
    do 10 (destruct tok as [|? tok]; [discriminate|]).
    destruct tok; [|discriminate].
    match type of Ed with (if ?v then _ else _) = _ =>
      destruct v eqn:Ev; [|discriminate] end.
    inversion Ed; subst d. split; [exact Ev|reflexivity]. }
  destruct Hv as [Hv Hl]. split; auto.
  exists pre, tok, post. auto.
Qed.

Lemma parse_date_valid_witness :
  Date.valid 2024 1 15 = true
  /\ exists pre tok post,
      u "оплата 15.01.2024 по счету" = pre ++ tok ++ post
      /\ strptime_dmy tok = Ok (2024, 1, 15) /\ length tok = 10%nat.
Proof.
  destruct parse_date_valid as (_ & H & _).
  apply (H (u "оплата 15.01.2024 по счету") (2024, 1, 15)).
  vm_compute. reflexivity.
Defined.

(** ** The header pass *)

Section HeaderPass.

Local Open Scope nat_scope.

Lemma pystr_eqb_eq (a b : list N) : PyStr.eqb a b = true <-> a = b.
Proof.
  revert b. induction a as [|x a IH]; intros [|y b]; simpl;
    try (split; [discriminate|congruence]); [tauto|].
  rewrite andb_true_iff, N.eqb_eq, IH. split.
  - intros [-> ->]. reflexivity.
  - intros H. inversion H. auto.
Qed.

Lemma index_of_nth (c : list N) (l : list (list N)) :
  forall i, index_of c l = Some i -> nth_error l i = Some c.
Proof.
  induction l as [|x l IH]; intros i H; simpl in H; [discriminate|].
  destruct (PyStr.eqb x c) eqn:E.
  - inversion H; subst. apply pystr_eqb_eq in E. now subst.
  - destruct (index_of c l) as [j|]; [|discriminate].
    inversion H; subst. simpl. now apply IH.
Qed.

Lemma index_of_in (c : list N) (l : list (list N)) :
  In c l -> exists i, index_of c l = Some i.
Proof.
  induction l as [|x l IH]; intros Hin; [destruct Hin|]. simpl.
  destruct (PyStr.eqb x c) eqn:E; [eauto|].
  destruct Hin as [->|Hin].
  - assert (PyStr.eqb c c = true) by now apply pystr_eqb_eq. congruence.
  - destruct (IH Hin) as [i ->]. simpl. eauto.
Qed.

(** The header found for a lower-cased name is a header with that
    lower-cased name. *)
Lemma header_of_low (cols : list (list N)) (c : list N) :
  In c (map PyStr.lower cols) ->
  exists col,
    match index_of c (map PyStr.lower cols) with
    | Some i => nth_error cols i
    | None => None
    end = Some col
    /\ In col cols /\ PyStr.lower col = c.
Proof.
  intros Hin. destruct (index_of_in c _ Hin) as [i Hi]. rewrite Hi.
  apply index_of_nth in Hi. rewrite nth_error_map in Hi.
  destruct (nth_error cols i) as [col|] eqn:E; [|discriminate].
  exists col. split; auto. split.
  - eapply nth_error_In; eauto.
  - simpl in Hi. congruence.
Qed.

Lemma find_col_spec (kw : list N) (cols : list (list N)) :
  forall low,
    incl low (map PyStr.lower cols) ->
    match find_col kw low cols (map PyStr.lower cols) with
    | Some col => In col cols /\ PyStr.contains kw (PyStr.lower col) = true
    | None => existsb (PyStr.contains kw) low = false
    end.
Proof.
  induction low as [|c low IH]; intros Hincl; cbn [find_col existsb]; auto.
  destruct (PyStr.contains kw c) eqn:E.
  - destruct (header_of_low cols c) as (col & -> & Hin & Hl).
    + apply Hincl. now left.
    + split; auto. now rewrite Hl.
  - apply IH. intros x Hx. apply Hincl. now right.
Qed.

Lemma has_kw_cons (kw : list N) (kws : list (list N)) (cols : list (list N)) :
  existsb (has_kw (kw :: kws)) cols
  = existsb (PyStr.contains kw) (map PyStr.lower cols)
    || existsb (has_kw kws) cols.
Proof.
  induction cols as [|c cols IH]; auto.
  cbn [existsb map]. rewrite IH. unfold has_kw at 1. cbn [existsb].
  fold (has_kw kws c).
  destruct (PyStr.contains kw (PyStr.lower c)),
    (existsb (PyStr.contains kw) (map PyStr.lower cols)),
    (has_kw kws c); reflexivity.
Qed.

(** [find] of [_infer_roles]: a header that holds the first keyword
    found in any header, or null when no header holds any keyword. *)
Lemma find_role_spec (kws : list (list N)) (cols : list (list N)) :
  match find_role kws cols with
  | Some col =>
      In col cols
      /\ exists before kw after,
          kws = before ++ kw :: after
          /\ existsb (has_kw before) cols = false
          /\ PyStr.contains kw (PyStr.lower col) = true
  | None => existsb (has_kw kws) cols = false
  end.
Proof.
  induction kws as [|kw kws IH]; cbn [find_role].
  - induction cols; auto.
  - pose proof (find_col_spec kw cols (map PyStr.lower cols) (incl_refl _)) as H.
    destruct (find_col kw _ cols _) as [col|].
    + destruct H as [Hin Hc]. split; auto.
      exists [], kw, kws. repeat split; auto.
      clear. induction cols; auto.
    + rewrite has_kw_cons, H. cbn [orb].
      destruct (find_role kws cols) as [col|]; auto.
      destruct IH as (Hin & before & kw' & after & -> & Hb & Hc).
      split; auto. exists (kw :: before), kw', after.
      repeat split; auto. now rewrite has_kw_cons, H, Hb.
Qed.


Lemma find_role_none (kws : list (list N)) (cols : list (list N)) :
  find_role kws cols = None -> forall c, In c cols -> has_kw kws c = false.
Proof.
  intros H c Hin. pose proof (find_role_spec kws cols) as S. rewrite H in S.
  destruct (has_kw kws c) eqn:E; auto.
  assert (existsb (has_kw kws) cols = true)
    by (apply existsb_exists; eauto).
  congruence.
Qed.

End HeaderPass.

(** X5.  The header pass gives a role the header that holds the first
    keyword of the role's list found in any header (the keywords are
    tried in order, each over all headers), and leaves the role null
    exactly when no header holds any of its keywords. *)
Theorem infer_roles_keyword_first (kws : list (list N)) (cols : list (list N)) :
  match find_role kws cols with
  | Some col =>
      In col cols
      /\ exists before kw after,
          kws = before ++ kw :: after
          /\ existsb (has_kw before) cols = false
          /\ PyStr.contains kw (PyStr.lower col) = true
  | None => existsb (has_kw kws) cols = false
  end
  /\ c_debit (_infer_roles [u "Дт счет"; u "Дебет"]) = Some (u "Дебет")
  /\ c_debit (_infer_roles [u "Дт счет"; u "Сумма"]) = Some (u "Дт счет").
Proof.
  split; [apply find_role_spec|]. split; vm_compute; reflexivity.
Qed.

(** ** The fallback pass *)

Section FallbackPass.

Lemma startswith_prefix (q r s : list N) :
  PyStr.startswith (q ++ r) s = true -> PyStr.startswith q s = true.
Proof.
  revert s. induction q as [|x q IH]; intros s H; auto.
  destruct s as [|y s]; simpl in *; [discriminate|].
  apply andb_prop in H. destruct H as [-> H]. simpl. now apply IH.
Qed.

Lemma contains_prefix (q r s : list N) :
  PyStr.contains (q ++ r) s = true -> PyStr.contains q s = true.
Proof.
  induction s as [|y s IH]; cbn [PyStr.contains]; intros H.
  - apply orb_prop in H. destruct H as [H|H]; [|discriminate].
    now rewrite (startswith_prefix _ _ _ H).
  - apply orb_prop in H. destruct H as [H|H].
    + now rewrite (startswith_prefix _ _ _ H).
    + rewrite (IH H). apply orb_true_r.
Qed.

Lemma contains_nonempty (k s : list N) :
  k <> [] -> PyStr.contains k s = true -> s <> [].
Proof.
  intros Hk H ->. destruct k as [|x k]; [congruence|]. discriminate.
Qed.



(** The keywords of the description fallback are keywords of the header
    pass, or extend one. *)
Lemma description_kw_covered (c : list N) :
  has_kw [u "назнач"; u "опис"; u "основан"; u "назначение платежа"] c = true ->
  has_kw [u "назнач"; u "опис"; u "коммент"; u "основан"] c = true.
Proof.
  unfold has_kw. cbn [existsb]. intros H.
  repeat (apply orb_prop in H; destruct H as [H|H]);
    try (rewrite H; rewrite ?orb_true_r; reflexivity); try discriminate.
  change (u "назначение платежа") with (u "назнач" ++ u "ение платежа") in H.
  apply contains_prefix in H. now rewrite H.
Qed.

Lemma find_none_iff {A : Type} (p : A -> bool) (l : list A) :
  (forall x, In x l -> p x = false) -> List.find p l = None.
Proof.
  induction l as [|x l IH]; intros H; auto. simpl.
  rewrite (H x) by now left. apply IH. intros y Hy. apply H. now right.
Qed.

Lemma guess_description_dead (sample : DataFrame)
      (exclude : list (option (list N))) :
  c_description (_infer_roles (columns sample)) = None ->
  _guess_description_col sample exclude = None.
Proof.
  intros H. cbn [_infer_roles c_description] in H.
  unfold _guess_description_col. apply find_none_iff. intros c Hin.
  pose proof (find_role_none _ _ H c Hin) as Hc.
  destruct (has_kw [u "назнач"; u "опис"; u "основан"; u "назначение платежа"] c)
    eqn:E; [|apply andb_false_r].
  apply description_kw_covered in E. congruence.
Qed.

Lemma guess_counterparty_inn (sample : DataFrame) (c : list N) :
  c_counterparty (_infer_roles (columns sample)) = None ->
  _guess_counterparty_col sample = Some c ->
  In c (columns sample) /\ PyStr.contains (u "инн") (PyStr.lower c) = true.
Proof.
  intros H Hg. cbn [_infer_roles c_counterparty] in H.
  unfold _guess_counterparty_col in Hg. apply find_some in Hg.
  destruct Hg as [Hin Hk]. split; auto.
  pose proof (find_role_none _ _ H c Hin) as Hc.
  unfold has_kw in Hk, Hc. cbn [existsb] in Hk, Hc.
  repeat (apply orb_false_elim in Hc; destruct Hc as [? Hc]).
  repeat match goal with Hx : PyStr.contains _ _ = false |- _ =>
    rewrite Hx in Hk; clear Hx end.
  cbn [orb] in Hk. now rewrite orb_false_r in Hk.
Qed.

End FallbackPass.



(** X7.  The content fallbacks add little to the header pass.  The
    description stays what the header pass found, since the fallback
    looks for the same keywords; and a counterparty column that the
    header pass did not find can only be one whose header holds the
    taxpayer-ID abbreviation. *)
Theorem resolve_roles_texts (df2 : DataFrame) (cm : ColMap) :
  resolve_roles df2 = Ok cm ->
  c_description cm = c_description (_infer_roles (columns df2))
  /\ (c_counterparty cm = c_counterparty (_infer_roles (columns df2))
      \/ exists c,
          c_counterparty cm = Some c /\ In c (columns df2)
          /\ PyStr.contains (u "инн") (PyStr.lower c) = true).
Proof.
  unfold resolve_roles. intros H.
  destruct (amount_fallback _ (sample_of df2)) as [cm1|] eqn:E; [|discriminate].
  assert (Hd : c_description cm1 = c_description (_infer_roles (columns df2))
               /\ c_counterparty cm1 = c_counterparty (_infer_roles (columns df2))).
  { unfold amount_fallback in E.
    cbn [c_debit c_credit c_date c_balance c_counterparty c_description] in E.
    destruct (c_debit _), (c_credit _);
      try (inversion E; subst; split; reflexivity);
      destruct (_guess_amount_cols _ _) as [[dc cc]|]; try discriminate;
      inversion E; subst; split; reflexivity. }
  destruct Hd as [Hd Hc].
  cbn [mbind exc_bind bind mret exc_ret] in H. inversion H; subst cm; clear H.
  cbn [c_description c_counterparty]. rewrite Hd, Hc. split.
  - destruct (c_description (_infer_roles (columns df2))) eqn:Ei; auto.
    now apply (guess_description_dead (sample_of df2)).
  - destruct (c_counterparty (_infer_roles (columns df2))) eqn:Ei; auto.
    destruct (_guess_counterparty_col (sample_of df2)) as [c|] eqn:Eg; auto.
    right. exists c. split; auto.
    now apply (guess_counterparty_inn (sample_of df2)).
Qed.

Lemma resolve_roles_texts_witness :
  let df2 := {| columns := [u "дата"; u "дебет"; u "кредит"; u "ИНН";
                            u "назначение платежа"];
                rows := [[CStr (u "01.01.2024"); CNum 5 (u "5"); CNaN;
                          CStr (u "7701234567"); CStr (u "оплата")]] |} in
  exists cm,
    resolve_roles df2 = Ok cm
    /\ c_description cm = c_description (_infer_roles (columns df2))
    /\ (c_counterparty cm = c_counterparty (_infer_roles (columns df2))
        \/ exists c,
            c_counterparty cm = Some c /\ In c (columns df2)
            /\ PyStr.contains (u "инн") (PyStr.lower c) = true).
Proof.
  intros df2. eexists. split; [vm_compute; reflexivity|].
  apply resolve_roles_texts. vm_compute. reflexivity.
Defined.

(** ** The date and balance fallbacks *)

Section DateBalanceFallback.

Local Open Scope nat_scope.


End DateBalanceFallback.


Section BalanceFallback.

Local Open Scope nat_scope.

Abbreviation by_score := (fun a b : list N * nat => snd b <? snd a).





End BalanceFallback.


(** ** Text input *)

Section TextInput.

Local Open Scope nat_scope.

Lemma lstrip_head (s : list N) (c : N) (t : list N) :
  PyStr.lstrip s = c :: t -> PyStr.is_space c = false.
Proof.
  induction s as [|x s IH]; simpl; [discriminate|].
  destruct (PyStr.is_space x) eqn:E; auto.
  intros H. inversion H; subst. exact E.
Qed.

Lemma lstrip_split (s : list N) :
  exists pre, s = pre ++ PyStr.lstrip s /\ forallb PyStr.is_space pre = true.
Proof.
  induction s as [|x s (pre & Hs & Hp)]; simpl; [exists []; auto|].
  destruct (PyStr.is_space x) eqn:E.
  - exists (x :: pre). simpl. rewrite E, Hp. split; auto. now f_equal.
  - exists []. auto.
Qed.

Lemma lstrip_spaces (s : list N) :
  forallb PyStr.is_space s = true -> PyStr.lstrip s = [].
Proof.
  induction s as [|x s IH]; simpl; auto.
  intros H. apply andb_prop in H. destruct H as [-> H]. auto.
Qed.

(** A stripped text that is not empty begins and ends with characters
    that are not spaces. *)
Lemma strip_ends (s : list N) (c : N) (t : list N) :
  PyStr.strip s = c :: t ->
  PyStr.is_space c = false
  /\ exists t' z, PyStr.strip s = t' ++ [z] /\ PyStr.is_space z = false.
Proof.
  unfold PyStr.strip, PyStr.rstrip. intros H.
  destruct (PyStr.lstrip (rev (PyStr.lstrip s))) as [|z b'] eqn:Eb;
    [discriminate|].
  pose proof (lstrip_head _ _ _ Eb) as Hz.
  split.
  - destruct (lstrip_split (rev (PyStr.lstrip s))) as (pre & Hs & Hp).
    rewrite Eb in Hs.
    assert (Ha : PyStr.lstrip s = rev (z :: b') ++ rev pre).
    { rewrite <- rev_app_distr, <- Hs. now rewrite rev_involutive. }
    rewrite H in Ha. simpl in Ha.
    now apply (lstrip_head s c (t ++ rev pre)).
  - exists (rev b'), z. split; auto.
Qed.

Lemma strip_idempotent (s : list N) : PyStr.strip (PyStr.strip s) = PyStr.strip s.
Proof.
  destruct (PyStr.strip s) as [|c t] eqn:E; [reflexivity|].
  destruct (strip_ends s c t E) as (Hc & t' & z & Hz & Hsz).
  rewrite E in Hz. now apply (strip_id _ t t' c z).
Qed.

Lemma strip_spaces (s : list N) :
  forallb PyStr.is_space s = true -> PyStr.strip s = [].
Proof.
  intros H. unfold PyStr.strip, PyStr.rstrip.
  now rewrite (lstrip_spaces s H).
Qed.

Lemma splitlines_chars_le (n : nat) :
  forall s cur l c,
    length s <= n ->
    In l (splitlines_from cur s) -> In c l -> In c cur \/ In c s.
Proof.
  induction n as [|n IH]; intros s cur l c Hn Hl Hc;
    destruct s as [|x s]; cbn [splitlines_from] in Hl;
    try (simpl in Hn; lia);
    try (destruct cur as [|y cur]; [destruct Hl|];
         destruct Hl as [<-|[]]; left; now apply in_rev).
  simpl in Hn. destruct (is_linebreak x).
  - destruct Hl as [<-|Hl]; [left; now apply in_rev|].
    destruct s as [|x' s'].
    + destruct Hl.
    + destruct ((x =? 13)%N && (x' =? 10)%N).
      * destruct (IH s' [] l c ltac:(simpl in Hn; lia) Hl Hc) as [[]|H].
        right. right. now right.
      * destruct (IH (x' :: s') [] l c ltac:(lia) Hl Hc) as [[]|H].
        right. now right.
  - destruct (IH s (x :: cur) l c ltac:(lia) Hl Hc) as [[<-|H]|H]; auto.
    + right. now left.
    + right. now right.
Qed.

Lemma splitlines_chars (s : list N) :
  forall cur l c,
    In l (splitlines_from cur s) -> In c l -> In c cur \/ In c s.
Proof. intros. eapply splitlines_chars_le; eauto. Qed.

Lemma map_exc_inv {A B : Type} (f : A -> exc B) (l : list A) :
  forall ys y,
    map_exc f l = Ok ys -> In y ys -> exists x, In x l /\ f x = Ok y.
Proof.
  induction l as [|a l IH]; intros ys y H Hin; simpl in H.
  - inversion H; subst. destruct Hin.
  - destruct (f a) as [b|] eqn:Ea; [|discriminate].
    destruct (map_exc f l) as [bs|] eqn:El; [|discriminate].
    inversion H; subst ys; clear H.
    destruct Hin as [<-|Hin].
    + exists a. split; [now left|exact Ea].
    + destruct (IH bs y eq_refl Hin) as (x & Hx & Hf).
      exists x. split; [now right|exact Hf].
Qed.

Lemma free_txn_fields (row : list cell) (t : Txn) :
  free_txn row = Ok t ->
  t_balance t = None
  /\ t_description t = Some (firstn 500 (str_of (iloc row 0))).
Proof.
  unfold free_txn. intros H.
  destruct (_parse_date _) as [d|]; [|discriminate].
  cbn [mbind exc_bind bind] in H.
  destruct (if PyStr.contains (u "деб") _ then _ else _) as [x|]; [|discriminate].
  cbn [mbind exc_bind bind] in H.
  destruct (if PyStr.contains (u "кред") _ then _ else _) as [y|]; [|discriminate].
  cbn [mbind exc_bind bind] in H. inversion H; subst. auto.
Qed.

Lemma filter_none {A : Type} (p : A -> bool) (l : list A) :
  (forall x, In x l -> p x = false) -> List.filter p l = [].
Proof.
  induction l as [|x l IH]; intros H; auto. simpl.
  rewrite (H x) by now left. apply IH. intros y Hy. apply H. now right.
Qed.

Lemma text_lines_stripped (raw line : list N) :
  In line (text_lines raw) -> line <> [] /\ PyStr.strip line = line.
Proof.
  unfold text_lines. intros H. apply in_map_iff in H.
  destruct H as (l & <- & Hl). apply filter_In in Hl. destruct Hl as [_ Hl].
  split; [|apply strip_idempotent].
  intros E. rewrite E in Hl. discriminate.
Qed.

End TextInput.

(** X10.  A text is parsed line by line and never raises.  Every
    transaction comes from one line that is not empty and has no space
    around it; it has no balance, its description is the first 500
    characters of the line, and its date, debit, credit or counterparty
    is truthy.  The transactions keep the order of the lines, and a text
    of spaces and line breaks gives none. *)
Theorem text_is_parsed_by_line (raw : list N) :
  exists all out,
    map_exc free_txn (map (fun l => [CStr l]) (text_lines raw)) = Ok all
    /\ parse_text_transactions raw = Ok out
    /\ out = List.filter free_keep all
    /\ (forall t, In t out ->
          exists line,
            In line (text_lines raw) /\ free_txn [CStr line] = Ok t
            /\ line <> [] /\ PyStr.strip line = line
            /\ t_balance t = None
            /\ t_description t = Some (firstn 500 line)
            /\ free_keep t = true)
    /\ (forallb PyStr.is_space raw = true -> out = []).
Proof.
  unfold parse_text_transactions, normalize_one_column.
  destruct (extract_shape
              {| columns := [u "raw"]; rows := rows (_to_dataframe_text raw) |}
              {| c_date := None; c_debit := None; c_credit := None;
                 c_balance := None; c_counterparty := None;
                 c_description := Some (u "raw") |}) as (all & Hall & Hout).
  change (is_free_text {| columns := [u "raw"];
                          rows := rows (_to_dataframe_text raw) |}) with true
    in Hall, Hout.
  cbn [rows _to_dataframe_text] in Hall.
  exists all, (List.filter free_keep all).
  split; [exact Hall|]. split; [exact Hout|]. split; [reflexivity|]. split.
  - intros t Ht. apply filter_In in Ht. destruct Ht as [Ht Hk].
    destruct (map_exc_inv _ _ _ _ Hall Ht) as (row & Hrow & Hf).
    apply in_map_iff in Hrow. destruct Hrow as (line & <- & Hline).
    exists line. destruct (text_lines_stripped raw line Hline) as [Hne Hs].
    destruct (free_txn_fields _ _ Hf) as [Hb Hd].
    repeat split; auto.
  - intros Hsp.
    assert (Hno : text_lines raw = []).
    { unfold text_lines.
      rewrite filter_none; auto.
      intros l Hl. rewrite strip_spaces; auto.
      apply forallb_forall. intros c Hc.
      destruct (splitlines_chars raw [] l c Hl Hc) as [[]|Hin].
      rewrite forallb_forall in Hsp. now apply Hsp. }
    rewrite Hno in Hall. simpl in Hall. inversion Hall. reflexivity.
Qed.

Lemma text_is_parsed_by_line_witness :
  exists all out,
    map_exc free_txn (map (fun l => [CStr l]) (text_lines (u "  "))) = Ok all
    /\ parse_text_transactions (u "  ") = Ok out
    /\ out = []
    /\ out = List.filter free_keep all.
Proof.
  destruct (text_is_parsed_by_line (u "  ")) as (all & out & Ha & Ho & He & _ & Hs).
  exists all, out. repeat split; auto.
Defined.

(** ** Cashflow *)

Section CashflowFacts.

Lemma cash_total_from (field : Txn -> option Q) (txns : list Txn) :
  forall a,
    (fold_left (fun acc t => acc + or0 (field t)) txns a
     == a + sum_of field txns)%Q.
Proof.
  induction txns as [|t txns IH]; intros a; cbn [fold_left sum_of fold_right].
  - lra.
  - rewrite IH. fold (sum_of field txns). lra.
Qed.

Lemma cash_total_sum (field : Txn -> option Q) (txns : list Txn) :
  (cash_total field txns == sum_of field txns)%Q.
Proof. unfold cash_total. rewrite cash_total_from. lra. Qed.

Lemma truthy_or0 (x : option Q) :
  truthy_amount x = true -> default 0%Q x = or0 x.
Proof.
  destruct x as [q|]; simpl; [|discriminate].
  destruct (Qeq_bool q 0); [discriminate|reflexivity].
Qed.

Lemma falsy_or0 (x : option Q) : truthy_amount x = false -> or0 x = 0%Q.
Proof.
  destruct x as [q|]; simpl; auto.
  destruct (Qeq_bool q 0); [reflexivity|discriminate].
Qed.

(** What one transaction does to the entry of the month [m]. *)
Lemma month_step_lookup (field : Txn -> option Q) (bm : gmap (list N) Q)
      (t : Txn) (m : list N) :
  (default 0 (month_step field bm t !! m)
   == default 0 (bm !! m) + (if in_month m t then or0 (field t) else 0))%Q
  /\ (is_Some (month_step field bm t !! m)
      <-> is_Some (bm !! m)
          \/ in_month m t && truthy_amount (field t) = true).
Proof.
  unfold month_step, in_month. destruct (t_date t) as [d|].
  - destruct (truthy_amount (field t)) eqn:Et.
    + destruct (PyStr.eqb (strftime_ym d) m) eqn:Em.
      * apply pystr_eqb_eq in Em. subst m.
        rewrite (truthy_or0 _ Et), lookup_insert_eq. simpl. split; [lra|].
        split; [now right|intros _; eauto].
      * assert (strftime_ym d <> m)
          by (intros E; rewrite E, (proj2 (pystr_eqb_eq m m) eq_refl) in Em;
              discriminate).
        rewrite lookup_insert_ne by assumption. split; [lra|].
        split; [now left|intros [H'|H']; [auto|discriminate]].
    + split.
      * destruct (PyStr.eqb (strftime_ym d) m); rewrite ?(falsy_or0 _ Et); lra.
      * rewrite andb_false_r. split; [now left|intros [H'|H']; [auto|discriminate]].
  - split; [lra|]. split; [now left|intros [H'|H']; [auto|discriminate]].
Qed.

Lemma by_month_from (field : Txn -> option Q) (txns : list Txn) (m : list N) :
  forall bm,
    (default 0 (fold_left (month_step field) txns bm !! m)
     == default 0 (bm !! m) + sum_of field (List.filter (in_month m) txns))%Q
    /\ (is_Some (fold_left (month_step field) txns bm !! m)
        <-> is_Some (bm !! m)
            \/ existsb (fun t => in_month m t && truthy_amount (field t)) txns
               = true).
Proof.
  induction txns as [|t txns IH]; intros bm; cbn [fold_left List.filter existsb].
  - split; [simpl; lra|]. split; [now left|intros [H|H]; [auto|discriminate]].
  - destruct (IH (month_step field bm t)) as [Hv Hk].
    destruct (month_step_lookup field bm t m) as [Hv1 Hk1].
    split.
    + rewrite Hv, Hv1.
      destruct (in_month m t); cbn [sum_of fold_right];
        fold (sum_of field (List.filter (in_month m) txns)); lra.
    + rewrite Hk, Hk1, orb_true_iff. tauto.
Qed.

End CashflowFacts.

(** X11.  In the cashflow summary the inflow of a month is the sum of
    the debits of the transactions dated in that month, and the outflow
    the sum of their credits; a transaction without a date adds to
    neither, though it counts in the totals.  A month has an entry
    exactly when one of its transactions has a debit (a credit) other
    than 0. *)
Theorem cashflow_by_month (txns : list Txn) (m : list N) :
  let cf := _analyze_cashflow txns in
  (default 0 (by_month_in cf !! m)
   == sum_of t_debit (List.filter (in_month m) txns))%Q
  /\ (default 0 (by_month_out cf !! m)
      == sum_of t_credit (List.filter (in_month m) txns))%Q
  /\ (is_Some (by_month_in cf !! m)
      <-> existsb (fun t => in_month m t && truthy_amount (t_debit t)) txns = true)
  /\ (is_Some (by_month_out cf !! m)
      <-> existsb (fun t => in_month m t && truthy_amount (t_credit t)) txns = true)
  /\ (cash_in cf == sum_of t_debit txns)%Q
  /\ (cash_out cf == sum_of t_credit txns)%Q.
Proof.
  cbn [_analyze_cashflow by_month_in by_month_out cash_in cash_out]. unfold by_month.
  destruct (by_month_from t_debit txns m ∅) as [Hv1 Hk1].
  destruct (by_month_from t_credit txns m ∅) as [Hv2 Hk2].
  rewrite lookup_empty in *. simpl in Hv1, Hv2.
  repeat split; try (rewrite ?Hv1, ?Hv2; lra); try apply cash_total_sum.
  - intros H. apply Hk1 in H. destruct H as [[x H]|H]; [discriminate|auto].
  - intros H. apply Hk1. now right.
  - intros H. apply Hk2 in H. destruct H as [[x H]|H]; [discriminate|auto].
  - intros H. apply Hk2. now right.
Qed.



(** ** Month ends *)

Section MonthEnds.

Lemma leb_antisym (a b : date) :
  Date.leb a b = true -> Date.leb b a = true -> a = b.
Proof.
  destruct a as [[ya ma] da], b as [[yb mb] db].
  unfold Date.leb, Date.ltb, Date.year, Date.month, Date.day. cbn [fst snd].
  repeat match goal with
         | |- context [N.ltb ?a ?b] => destruct (N.ltb_spec a b)
         | |- context [N.eqb ?a ?b] => destruct (N.eqb_spec a b)
         end; simpl; intros; subst; try discriminate; try reflexivity;
    try lia.
  all: repeat f_equal; lia.
Qed.

Lemma insert_dates_perm (x : date) (l : list date) :
  Permutation (insert_sorted Date.ltb x l) (x :: l).
Proof.
  induction l as [|y l IH]; simpl; auto.
  destruct (Date.ltb y x); auto.
  rewrite IH. apply perm_swap.
Qed.

Lemma sort_dates_perm (l : list date) : Permutation (stable_sort Date.ltb l) l.
Proof.
  induction l as [|x l IH]; simpl; auto.
  rewrite insert_dates_perm. now constructor.
Qed.

Lemma insert_dates_sorted (x : date) (l : list date) :
  dates_sorted l = true -> dates_sorted (insert_sorted Date.ltb x l) = true.
Proof.
  induction l as [|y l IH]; intros Hs; simpl; auto.
  simpl in Hs. apply andb_prop in Hs. destruct Hs as [Hall Hs].
  destruct (Date.ltb y x) eqn:E; simpl.
  - rewrite IH by assumption. rewrite andb_true_r.
    apply forallb_forall. intros z Hz.
    apply (Permutation_in _ (insert_dates_perm x l)) in Hz.
    destruct Hz as [<-|Hz]; [now apply ltb_leb|].
    rewrite forallb_forall in Hall. now apply Hall.
  - rewrite Hall, Hs, (nltb_leb _ _ E). simpl. rewrite andb_true_r.
    apply forallb_forall. intros z Hz.
    rewrite forallb_forall in Hall.
    apply (leb_trans _ y); [now apply nltb_leb|now apply Hall].
Qed.

Lemma sort_dates_sorted (l : list date) :
  dates_sorted (stable_sort Date.ltb l) = true.
Proof.
  induction l as [|x l IH]; simpl; auto. now apply insert_dates_sorted.
Qed.

Lemma dates_sorted_split (pre : list date) (d : date) (post : list date) :
  dates_sorted (pre ++ d :: post) = true ->
  forall d', In d' post -> Date.leb d d' = true.
Proof.
  induction pre as [|x pre IH]; simpl; intros Hs d' Hin.
  - apply andb_prop in Hs. destruct Hs as [Hall _].
    rewrite forallb_forall in Hall. now apply Hall.
  - apply andb_prop in Hs. destruct Hs as [_ Hs]. now apply IH.
Qed.

(** [sorted(daily)] lists the dates of the map, once each. *)
Lemma sorted_keys_in (daily : gmap date Q) (d : date) :
  In d (sorted_keys daily) <-> is_Some (daily !! d).
Proof.
  unfold sorted_keys.
  split.
  - intros H. apply (Permutation_in _ (sort_dates_perm _)) in H.
    apply in_map_iff in H. destruct H as ([d' v] & <- & Hin).
    apply list_elem_of_In, elem_of_map_to_list in Hin. simpl. eauto.
  - intros [v Hv].
    apply (Permutation_in _ (Permutation_sym (sort_dates_perm _))).
    apply in_map_iff. exists (d, v). split; auto.
    apply list_elem_of_In, elem_of_map_to_list. exact Hv.
Qed.

Lemma sorted_keys_nodup (daily : gmap date Q) : List.NoDup (sorted_keys daily).
Proof.
  unfold sorted_keys.
  apply (Permutation_NoDup (Permutation_sym (sort_dates_perm _))).
  apply NoDup_ListNoDup. apply (NoDup_fst_map_to_list daily).
Qed.

Abbreviation month_set daily :=
  (fun (acc : gmap (list N) (option Q)) (d : date) =>
     <[month_key d := Some (default 0%Q (daily !! d))]> acc).

Lemma month_fold_other (daily : gmap date Q) (m : list N) (l : list date) :
  forall acc,
    (forall d, In d l -> month_key d <> m) ->
    fold_left (month_set daily) l acc !! m = acc !! m.
Proof.
  induction l as [|d l IH]; intros acc H; cbn [fold_left]; auto.
  rewrite IH by (intros; apply H; now right).
  apply lookup_insert_ne. apply H. now left.
Qed.

Lemma month_fold_last (daily : gmap date Q) (pre : list date) (d : date) :
  forall acc,
    fold_left (month_set daily) (pre ++ [d]) acc !! month_key d
    = Some (Some (default 0%Q (daily !! d))).
Proof.
  induction pre as [|x pre IH]; intros acc; cbn [fold_left app].
  - apply lookup_insert_eq.
  - apply IH.
Qed.

(** No value of the month map is [None]. *)
Lemma month_fold_some (daily : gmap date Q) (l : list date) :
  forall acc m,
    acc !! m <> Some None ->
    fold_left (month_set daily) l acc !! m <> Some None.
Proof.
  induction l as [|d l IH]; intros acc m H; cbn [fold_left]; auto.
  apply IH. destruct (decide (month_key d = m)) as [<-|Hne].
  - rewrite lookup_insert_eq. discriminate.
  - now rewrite lookup_insert_ne.
Qed.

End MonthEnds.

(** X13.  The month-end map holds, for each month, the balance of the
    last date of that month in the daily map, and has no entry for a
    month without a date in the daily map. *)
Theorem month_end_is_last_date (daily : gmap date Q) :
  (forall d v,
      daily !! d = Some v ->
      (forall d', is_Some (daily !! d') -> month_key d' = month_key d ->
                  Date.leb d' d = true) ->
      by_month_end daily !! month_key d = Some (Some v))
  /\ (forall m,
         (forall d, is_Some (daily !! d) -> month_key d <> m) ->
         by_month_end daily !! m = None).
Proof.
  split.
  - intros d v Hd Hmax. unfold by_month_end.
    assert (Hin : In d (sorted_keys daily)) by (apply sorted_keys_in; eauto).
    apply in_split in Hin. destruct Hin as (pre & post & Hl).
    pose proof (sorted_keys_nodup daily) as Hnd.
    pose proof (sort_dates_sorted (map fst (map_to_list daily))) as Hs.
    fold (sorted_keys daily) in Hs. rewrite Hl in Hs, Hnd |- *.
    replace (pre ++ d :: post) with ((pre ++ [d]) ++ post)
      by (now rewrite <- app_assoc).
    rewrite fold_left_app, month_fold_other.
    + rewrite month_fold_last, Hd. reflexivity.
    + intros d' Hd' Hm.
      assert (Hk : is_Some (daily !! d')).
      { apply sorted_keys_in. rewrite Hl. apply in_or_app. right. now right. }
      pose proof (dates_sorted_split _ _ _ Hs d' Hd') as Hle.
      pose proof (Hmax d' Hk Hm) as Hge.
      assert (d = d') by now apply leb_antisym. subst d'.
      apply NoDup_remove_2 in Hnd. apply Hnd. apply in_or_app. now right.
  - intros m Hm. unfold by_month_end.
    rewrite month_fold_other; [apply lookup_empty|].
    intros d Hd. apply Hm. now apply sorted_keys_in.
Qed.

Lemma month_end_is_last_date_witness :
  let daily : gmap date Q :=
    <[(2024, 1, 31)%N := (7 # 1)%Q]> (<[(2024, 1, 2)%N := (5 # 1)%Q]> ∅) in
  by_month_end daily !! month_key (2024, 1, 31) = Some (Some (7 # 1)%Q)
  /\ by_month_end daily !! u "2024-02" = None.
Proof.
  intros daily. destruct (month_end_is_last_date daily) as [Hlast Hnone].
  split.
  - apply Hlast; [vm_compute; reflexivity|].
    intros d' [v' Hv'] _.
    unfold daily in Hv'.
    destruct (decide ((2024, 1, 31) = d')) as [<-|H1]; [reflexivity|].
    rewrite lookup_insert_ne in Hv' by assumption.
    destruct (decide ((2024, 1, 2) = d')) as [<-|H2]; [reflexivity|].
    rewrite lookup_insert_ne in Hv' by assumption.
    rewrite lookup_empty in Hv'. discriminate.
  - apply Hnone. intros d [v Hv]. unfold daily in Hv.
    destruct (decide ((2024, 1, 31) = d)) as [<-|H1]; [vm_compute; discriminate|].
    rewrite lookup_insert_ne in Hv by assumption.
    destruct (decide ((2024, 1, 2) = d)) as [<-|H2]; [vm_compute; discriminate|].
    rewrite lookup_insert_ne in Hv by assumption.
    rewrite lookup_empty in Hv. discriminate.
Defined.

(** X14.  With an obligation greater than 0 the stress test has an entry
    for every month of the month-end map and for no other key: the test
    for a missing month-end balance never skips a month. *)
Theorem stress_test_covers_months (daily : gmap date Q) (p : Q) (k : list N) :
  (0 < p)%Q ->
  (is_Some (stress_test (by_month_end daily) p !! k)
   <-> is_Some (by_month_end daily !! k)).
Proof.
  intros Hp. unfold stress_test. rewrite payment_test.
  destruct (Qlt_le_dec 0 p) as [_|Hle]; [|lra].
  rewrite lookup_omap.
  assert (Hsome : by_month_end daily !! k <> Some None).
  { unfold by_month_end. apply month_fold_some.
    rewrite lookup_empty. discriminate. }
  destruct (by_month_end daily !! k) as [[b|]|]; simpl;
    try congruence; split; intros [x Hx]; eauto; discriminate.
Qed.

Lemma stress_test_covers_months_witness :
  let daily : gmap date Q := <[(2024, 1, 31)%N := (7 # 1)%Q]> ∅ in
  is_Some (stress_test (by_month_end daily) (500 # 1) !! u "2024-01")
  <-> is_Some (by_month_end daily !! u "2024-01").
Proof.
  intros daily. apply stress_test_covers_months. reflexivity.
Defined.



(** ** The retry wrapper *)

Section Retry.

Local Open Scope nat_scope.

Context {A : Type} (func : nat -> exc A) (default : A) (retries : nat)
        (backoff : Q).

(** Failures up to attempt [k], then a success. *)
Lemma run_loop_success (k : nat) (v : A) :
  k <= retries ->
  func k = Ok v ->
  forall j attempt delay,
    attempt + j = k -> 1 <= attempt ->
    (forall i, attempt <= i < k -> exists e, func i = Raise e) ->
    run_loop func default retries (retries + 1 - attempt) attempt delay backoff
    = (Some v, delays delay backoff j).
Proof.
  intros Hk Hv j. induction j as [|j IH]; intros attempt delay Hj Ha Hfail.
  - replace attempt with k in * by lia.
    destruct (retries + 1 - k) as [|todo] eqn:E; [lia|].
    cbn [run_loop delays]. now rewrite Hv.
  - destruct (retries + 1 - attempt) as [|todo] eqn:E; [lia|].
    cbn [run_loop delays].
    destruct (Hfail attempt ltac:(lia)) as [e ->].
    replace (attempt <? retries) with true by (symmetry; apply Nat.ltb_lt; lia).
    replace todo with (retries + 1 - S attempt) by lia.
    rewrite (IH (S attempt) (delay * backoff)%Q); auto; try lia.
    intros i Hi. apply Hfail. lia.
Qed.

(** Every attempt fails. *)
Lemma run_loop_failure :
  (forall i, 1 <= i <= retries -> exists e, func i = Raise e) ->
  forall j attempt delay,
    attempt + j = retries -> 1 <= attempt ->
    run_loop func default retries (retries + 1 - attempt) attempt delay backoff
    = (Some default, delays delay backoff j).
Proof.
  intros Hfail j. induction j as [|j IH]; intros attempt delay Hj Ha.
  - replace attempt with retries in * by lia.
    replace (retries + 1 - retries) with 1 by lia.
    cbn [run_loop delays].
    destruct (Hfail retries ltac:(lia)) as [e ->].
    now rewrite Nat.ltb_irrefl.
  - destruct (retries + 1 - attempt) as [|todo] eqn:E; [lia|].
    cbn [run_loop delays].
    destruct (Hfail attempt ltac:(lia)) as [e ->].
    replace (attempt <? retries) with true by (symmetry; apply Nat.ltb_lt; lia).
    replace todo with (retries + 1 - S attempt) by lia.
    rewrite (IH (S attempt) (delay * backoff)%Q); auto; lia.
Qed.

End Retry.

Lemma delays_nth (backoff : Q) (n : nat) :
  forall delay i,
    (i < n)%nat ->
    (nth i (delays delay backoff n) 0 == delay * backoff ^ Z.of_nat i)%Q.
Proof.
  induction n as [|n IH]; intros delay i Hi; [lia|].
  destruct i as [|i]; cbn [delays nth].
  - simpl. lra.
  - rewrite IH by lia.
    replace (Z.of_nat (S i)) with (1 + Z.of_nat i)%Z by lia.
    rewrite Qpower_plus' by lia. rewrite Qpower_1_r. lra.
Qed.

(** X16.  The retry wrapper calls the function at most [retries] times.
    It returns the first result obtained, after sleeping between the
    failed attempts; when every attempt fails it returns the default
    after [retries - 1] sleeps, none after the last failure.  The
    delays start at the base delay and are multiplied by the back-off
    each time.  With no retries allowed the function is not called and
    the result is [None], not the default. *)
Theorem run_retry_schedule {A : Type} (func : nat -> exc A) (default : A)
        (retries : nat) (base_delay backoff : Q) :
  (retries = 0%nat -> run retries base_delay backoff func default = (None, []))
  /\ (forall k v,
         (1 <= k <= retries)%nat ->
         (forall i, (1 <= i < k)%nat -> exists e, func i = Raise e) ->
         func k = Ok v ->
         run retries base_delay backoff func default
         = (Some v, delays base_delay backoff (k - 1)))
  /\ ((1 <= retries)%nat ->
      (forall i, (1 <= i <= retries)%nat -> exists e, func i = Raise e) ->
      run retries base_delay backoff func default
      = (Some default, delays base_delay backoff (retries - 1)))
  /\ (forall n i, (i < n)%nat ->
        (nth i (delays base_delay backoff n) 0
         == base_delay * backoff ^ Z.of_nat i)%Q).
Proof.
  split; [intros ->; reflexivity|]. split; [|split].
  - intros k v Hk Hfail Hv. unfold run.
    replace retries with (retries + 1 - 1)%nat at 2 by lia.
    apply (run_loop_success func default retries backoff k v); auto; lia.
  - intros Hr Hfail. unfold run.
    replace retries with (retries + 1 - 1)%nat at 2 by lia.
    apply (run_loop_failure func default retries backoff); auto; lia.
  - intros n i Hi. now apply delays_nth.
Qed.

Lemma run_retry_schedule_witness :
  run 0 1 2 (fun _ => Raise TypeError) (@nil Txn) = (None, [])
  /\ run 3 1 2 (fun i => if (i <? 2)%nat then Raise TypeError else Ok [])
         (@nil Txn)
     = (Some [], delays 1 2 1)
  /\ run 2 1 2 (fun _ => Raise TypeError) (@nil Txn)
     = (Some [], delays 1 2 1)
  /\ (nth 1 (delays 1 2 3) 0 == 1 * 2 ^ Z.of_nat 1)%Q.
Proof.
  destruct (run_retry_schedule (fun _ => Raise TypeError) (@nil Txn) 0%nat 1 2)
    as (H0 & _).
  destruct (run_retry_schedule
              (fun i => if (i <? 2)%nat then Raise TypeError else Ok [])
              (@nil Txn) 3%nat 1 2) as (_ & Hs & _).
  destruct (run_retry_schedule (fun _ => Raise TypeError) (@nil Txn) 2%nat 1 2)
    as (_ & _ & Hf & Hn).
  split; [now apply H0|]. split; [|split].
  - apply (Hs 2%nat []); [lia| |reflexivity].
    intros i Hi. replace i with 1%nat by lia. eexists. reflexivity.
  - apply Hf; [lia|]. intros i _. eexists. reflexivity.
  - apply Hn. lia.
Defined.

(** ** Column names *)

Section UniqueHeaders.

Local Open Scope nat_scope.

Lemma col_name_truthy (i : nat) : PyStr.truthy (col_name i) = true.
Proof. reflexivity. Qed.

Lemma unique_loop_shape (headers : list (list N)) (todo : nat) :
  forall i seen,
    length (unique_loop headers i todo seen) = todo
    /\ forallb PyStr.truthy (unique_loop headers i todo seen) = true.
Proof.
  induction todo as [|todo IH]; intros i seen; [split; reflexivity|].
  cbn [unique_loop].
  set (base := match nth_error headers i with Some h => h | None => col_name i end).
  set (name := if PyStr.truthy base then base else col_name i).
  assert (Hn : PyStr.truthy name = true)
    by (subst name; destruct (PyStr.truthy base) eqn:E; auto).
  destruct (seen !! name) as [k|].
  - destruct (IH (S i) (<[name := S k]> seen)) as [Hl Ht].
    cbn [length forallb]. rewrite Hl, Ht. split; auto.
    destruct name; [discriminate|reflexivity].
  - destruct (IH (S i) (<[name := 0]> seen)) as [Hl Ht].
    cbn [length forallb]. rewrite Hl, Ht, Hn. split; auto.
Qed.

(** Distinct, non-empty headers are kept as they are. *)
Lemma unique_loop_distinct (headers : list (list N)) (todo : nat) :
  forall i seen,
    i + todo <= length headers ->
    List.NoDup (firstn (i + todo) headers) ->
    forallb PyStr.truthy (firstn (i + todo) headers) = true ->
    (forall h, is_Some (seen !! h) -> In h (firstn i headers)) ->
    unique_loop headers i todo seen = firstn todo (skipn i headers).
Proof.
  induction todo as [|todo IH]; intros i seen Hlen Hnd Ht Hseen; [reflexivity|].
  cbn [unique_loop].
  destruct (nth_error headers i) as [h|] eqn:Eh;
    [|apply nth_error_None in Eh; lia].
  assert (Hsplit : firstn (i + S todo) headers
                   = firstn i headers ++ h :: firstn todo (skipn (S i) headers)).
  { rewrite <- (firstn_skipn i headers) at 1.
    rewrite firstn_app, firstn_firstn, length_firstn.
    replace (Init.Nat.min (i + S todo) i) with i by lia.
    replace (i + S todo - Init.Nat.min i (length headers)) with (S todo) by lia.
    f_equal.
    destruct (skipn i headers) as [|x r] eqn:Es.
    - apply (f_equal (@length _)) in Es. rewrite length_skipn in Es. simpl in Es. lia.
    - assert (nth_error (skipn i headers) 0 = Some h)
        by (rewrite nth_error_skipn, Nat.add_0_r; exact Eh).
      rewrite Es in H. simpl in H. inversion H; subst x. cbn [firstn]. f_equal.
      replace (S i) with (1 + i) by lia.
      rewrite <- skipn_skipn, Es. reflexivity. }
  assert (Hh : PyStr.truthy h = true).
  { rewrite Hsplit, forallb_app in Ht. apply andb_prop in Ht.
    destruct Ht as [_ Ht]. simpl in Ht. now apply andb_prop in Ht. }
  rewrite Hh.
  assert (Hnew : seen !! h = None).
  { destruct (seen !! h) eqn:E; auto.
    exfalso. rewrite Hsplit in Hnd. apply NoDup_remove_2 in Hnd.
    apply Hnd. apply in_or_app. left. apply Hseen. eauto. }
  rewrite Hnew.
  assert (Hskip : skipn i headers = h :: skipn (S i) headers).
  { destruct (skipn i headers) as [|x r] eqn:Es.
    - apply (f_equal (@length _)) in Es. rewrite length_skipn in Es. simpl in Es. lia.
    - assert (nth_error (skipn i headers) 0 = Some h)
        by (rewrite nth_error_skipn, Nat.add_0_r; exact Eh).
      rewrite Es in H. simpl in H. inversion H; subst x. f_equal.
      replace (S i) with (1 + i) by lia.
      rewrite <- skipn_skipn, Es. reflexivity. }
  rewrite Hskip. cbn [firstn]. f_equal.
  apply IH.
  - lia.
  - replace (S i + todo) with (i + S todo) by lia. exact Hnd.
  - replace (S i + todo) with (i + S todo) by lia. exact Ht.
  - intros x Hx.
    assert (Hfi : firstn (S i) headers = firstn i headers ++ [h]).
    { rewrite <- (firstn_skipn i headers) at 1.
      rewrite firstn_app, firstn_firstn, length_firstn, Hskip.
      replace (Init.Nat.min (S i) i) with i by lia.
      replace (S i - Init.Nat.min i (length headers)) with 1 by lia.
      reflexivity. }
    rewrite Hfi. apply in_or_app.
    destruct (decide (h = x)) as [->|Hne]; [right; now left|left].
    apply Hseen. now rewrite lookup_insert_ne in Hx.
Qed.

End UniqueHeaders.

(** X17.  [_make_unique_headers] returns exactly [n] names, none of them
    empty, and keeps headers that are distinct and not empty as they
    are.  The names are not always distinct: a name made for a repeat
    can meet a header that already has that form. *)
Theorem make_unique_headers_names (headers : list (list N)) (n : nat) :
  length (_make_unique_headers headers n) = n
  /\ forallb PyStr.truthy (_make_unique_headers headers n) = true
  /\ ((n <= length headers)%nat ->
      List.NoDup (firstn n headers) ->
      forallb PyStr.truthy (firstn n headers) = true ->
      _make_unique_headers headers n = firstn n headers)
  /\ _make_unique_headers [u "a"; u "a"; u "a_1"] 3 = [u "a"; u "a_1"; u "a_1"].
Proof.
  unfold _make_unique_headers.
  destruct (unique_loop_shape headers n 0%nat ∅) as [Hl Ht].
  split; [exact Hl|]. split; [exact Ht|]. split; [|vm_compute; reflexivity].
  intros Hn Hnd Htr.
  rewrite (unique_loop_distinct headers n 0%nat ∅); auto.
  intros h [x Hx]. rewrite lookup_empty in Hx. discriminate.
Qed.

Lemma make_unique_headers_names_witness :
  _make_unique_headers [u "дата"; u "дебет"; u "кредит"] 3
  = firstn 3 [u "дата"; u "дебет"; u "кредит"].
Proof.
  destruct (make_unique_headers_names [u "дата"; u "дебет"; u "кредит"] 3)
    as (_ & _ & H & _).
  apply H.
  - simpl. lia.
  - cbn [firstn].
    repeat (constructor;
            [simpl; intros Hin;
             repeat (destruct Hin as [Hin|Hin]; [vm_compute in Hin; discriminate|]);
             exact Hin|]).
    constructor.
  - vm_compute. reflexivity.
Defined.

(** ** The summary of the daily balances *)

Section Summary.

Lemma Qltb_true (a b : Q) : Qltb a b = true <-> (a < b)%Q.
Proof.
  rewrite Qltb_dec. destruct (Qlt_le_dec a b); split; auto; try discriminate.
  intros H. lra.
Qed.

Lemma Qltb_false (a b : Q) : Qltb a b = false <-> (b <= a)%Q.
Proof.
  rewrite Qltb_dec. destruct (Qlt_le_dec a b); split; auto; try discriminate.
  intros H. lra.
Qed.




End Summary.


(** ** Counterparties *)

Section Counterparties.

Context (field : Txn -> option Q).

(** The flow of the counterparty [k] over the transactions [l]. *)
Abbreviation total_of k l :=
  (sum_of field (List.filter (of_counterparty k) l)).

Lemma sum_of_app (a b : list Txn) :
  (sum_of field (a ++ b) == sum_of field a + sum_of field b)%Q.
Proof.
  induction a as [|t a IH]; cbn [app sum_of fold_right].
  - unfold sum_of. simpl. lra.
  - fold (sum_of field (a ++ b)) (sum_of field a). rewrite IH. lra.
Qed.

Lemma total_of_snoc (k : list N) (l : list Txn) (t : Txn) :
  (total_of k (l ++ [t])
   == total_of k l + (if of_counterparty k t then or0 (field t) else 0))%Q.
Proof.
  rewrite List.filter_app, sum_of_app. cbn [List.filter].
  destruct (of_counterparty k t); unfold sum_of; simpl; lra.
Qed.

Lemma counter_add_keys (cp : list N) (x : Q) (c : list (list N * Q)) (k : list N) :
  In k (map fst (counter_add cp x c)) <-> k = cp \/ In k (map fst c).
Proof.
  induction c as [|[k0 v0] c IH]; cbn [counter_add map fst In].
  - intuition.
  - destruct (PyStr.eqb k0 cp) eqn:E; cbn [map fst In].
    + apply pystr_eqb_eq in E. subst k0. intuition.
    + rewrite IH. intuition.
Qed.

Lemma counter_add_nodup (cp : list N) (x : Q) (c : list (list N * Q)) :
  List.NoDup (map fst c) -> List.NoDup (map fst (counter_add cp x c)).
Proof.
  induction c as [|[k0 v0] c IH]; cbn [counter_add map fst]; intros H.
  - constructor; [intros []|constructor].
  - inversion H as [|? ? Hnin Hnd]; subst.
    destruct (PyStr.eqb k0 cp) eqn:E; cbn [map fst].
    + now constructor.
    + constructor; [|now apply IH].
      rewrite counter_add_keys. intros [->|Hin]; [|contradiction].
      rewrite (proj2 (pystr_eqb_eq cp cp) eq_refl) in E. discriminate.
Qed.

Lemma default_some (a x : Q) : default a (Some x) = x.
Proof. reflexivity. Qed.

Lemma eqb_refl (k : list N) : PyStr.eqb k k = true.
Proof. now apply pystr_eqb_eq. Qed.

Lemma eqb_neq (a b : list N) : a <> b -> PyStr.eqb a b = false.
Proof.
  intros H. destruct (PyStr.eqb a b) eqn:E; auto.
  apply pystr_eqb_eq in E. contradiction.
Qed.

Lemma counter_get_add (cp : list N) (x : Q) (c : list (list N * Q)) (k : list N) :
  counter_get k (counter_add cp x c)
  = if PyStr.eqb cp k
    then Some (default 0%Q (counter_get cp c) + x)%Q
    else counter_get k c.
Proof.
  induction c as [|[k0 v0] c IH]; cbn [counter_add counter_get].
  - destruct (PyStr.eqb cp k); reflexivity.
  - destruct (PyStr.eqb k0 cp) eqn:E; cbn [counter_get].
    + apply pystr_eqb_eq in E. subst k0.
      destruct (PyStr.eqb cp k); reflexivity.
    + rewrite IH. destruct (PyStr.eqb cp k) eqn:Ek; auto.
      apply pystr_eqb_eq in Ek. subst k. now rewrite E.
Qed.

Lemma counter_get_in (c : list (list N * Q)) (k : list N) (v : Q) :
  List.NoDup (map fst c) -> In (k, v) c -> counter_get k c = Some v.
Proof.
  induction c as [|[k0 v0] c IH]; intros Hnd Hin; [destruct Hin|].
  cbn [map fst] in Hnd. inversion Hnd as [|? ? Hnin Hnd']; subst.
  cbn [counter_get]. destruct Hin as [H|H].
  - inversion H; subst. now rewrite eqb_refl.
  - rewrite eqb_neq; [now apply IH|].
    intros ->. apply Hnin. apply in_map_iff. exists (k, v). auto.
Qed.

Lemma counter_get_key (c : list (list N * Q)) (k : list N) :
  is_Some (counter_get k c) <-> In k (map fst c).
Proof.
  induction c as [|[k0 v0] c IH]; cbn [counter_get map fst In].
  - split; [intros [x H]; discriminate|intros []].
  - destruct (PyStr.eqb k0 k) eqn:E.
    + apply pystr_eqb_eq in E. subst. split; eauto.
    + rewrite IH. split; auto. intros [->|H]; auto.
      rewrite eqb_refl in E. discriminate.
Qed.

(** What the counter holds after the transactions [l]. *)
Lemma flows_spec (l : list Txn) :
  List.NoDup (map fst (flows field l))
  /\ (forall k, In k (map fst (flows field l)) -> PyStr.truthy k = true)
  /\ (forall k, PyStr.truthy k = true ->
                (default 0 (counter_get k (flows field l)) == total_of k l)%Q).
Proof.
  unfold flows. induction l as [|t l (Hnd & Hkeys & Hval)] using rev_ind.
  - cbn. split; [constructor|]. split; [intros k []|]. intros. unfold sum_of. simpl. lra.
  - rewrite fold_left_app. cbn [fold_left]. unfold flow_step at 1 3 5.
    set (c := fold_left (flow_step field) l []) in *.
    assert (Hsame : forall k, PyStr.truthy k = true ->
                      (if of_counterparty k t then or0 (field t) else 0%Q) == 0 ->
                      (default 0 (counter_get k c) == total_of k (l ++ [t]))%Q).
    { intros k Hk Hz. rewrite total_of_snoc, Hz, Hval by assumption. lra. }
    destruct (t_counterparty t) as [cp|] eqn:Ecp.
    + destruct (PyStr.truthy cp) eqn:Etr; cbn [andb].
      * destruct (truthy_amount (field t)) eqn:Eam.
        -- split; [now apply counter_add_nodup|]. split.
           ++ intros k Hk. apply counter_add_keys in Hk.
              destruct Hk as [->|Hk]; auto.
           ++ intros k Hk. rewrite counter_get_add, total_of_snoc.
              assert (Hof : of_counterparty k t = PyStr.eqb cp k)
                by (unfold of_counterparty; now rewrite Ecp).
              rewrite Hof.
              destruct (PyStr.eqb cp k) eqn:E.
              ** apply pystr_eqb_eq in E. subst k.
                 rewrite (truthy_or0 _ Eam), default_some.
                 rewrite (Hval cp Hk). lra.
              ** rewrite (Hval k Hk). lra.
        -- split; auto. split; auto. intros k Hk. apply Hsame; auto.
           rewrite (falsy_or0 _ Eam). now destruct (of_counterparty k t).
      * split; auto. split; auto. intros k Hk. apply Hsame; auto.
        assert (Hof : of_counterparty k t = false).
        { unfold of_counterparty. rewrite Ecp.
          destruct (PyStr.eqb cp k) eqn:E; [|reflexivity].
          apply pystr_eqb_eq in E. subst k. congruence. }
        now rewrite Hof.
    + split; auto. split; auto. intros k Hk. apply Hsame; auto.
      assert (Hof : of_counterparty k t = false)
        by (unfold of_counterparty; now rewrite Ecp).
      now rewrite Hof.
Qed.

End Counterparties.

Section Ranking.

Abbreviation by_amount := (fun a b : list N * Q => Qltb (snd b) (snd a)).

Lemma insert_amount_perm (x : list N * Q) (l : list (list N * Q)) :
  Permutation (insert_sorted by_amount x l) (x :: l).
Proof.
  induction l as [|y l IH]; simpl; auto.
  destruct (Qltb (snd x) (snd y)); auto.
  rewrite IH. apply perm_swap.
Qed.

Lemma sort_amount_perm (l : list (list N * Q)) :
  Permutation (stable_sort by_amount l) l.
Proof.
  induction l as [|x l IH]; simpl; auto.
  rewrite insert_amount_perm. now constructor.
Qed.

Lemma insert_amount_sorted (x : list N * Q) (l : list (list N * Q)) :
  amounts_sorted l = true ->
  amounts_sorted (insert_sorted by_amount x l) = true.
Proof.
  induction l as [|y l IH]; intros Hs; simpl; auto.
  simpl in Hs. apply andb_prop in Hs. destruct Hs as [Hall Hs].
  rewrite forallb_forall in Hall.
  destruct (Qltb (snd x) (snd y)) eqn:E; simpl.
  - rewrite IH by assumption. rewrite andb_true_r.
    apply forallb_forall. intros z Hz.
    apply (Permutation_in _ (insert_amount_perm x l)) in Hz.
    destruct Hz as [<-|Hz]; [|now apply Hall].
    apply Qltb_true in E. apply Qle_bool_iff. lra.
  - apply Qltb_false in E.
    rewrite Hs, andb_true_r.
    replace (Qle_bool (snd y) (snd x)) with true
      by (symmetry; now apply Qle_bool_iff).
    simpl. apply andb_true_intro. split.
    + apply forallb_forall. intros z Hz.
      specialize (Hall z Hz). apply Qle_bool_iff in Hall.
      apply Qle_bool_iff. lra.
    + apply forallb_forall. exact Hall.
Qed.

Lemma sort_amount_sorted (l : list (list N * Q)) :
  amounts_sorted (stable_sort by_amount l) = true.
Proof.
  induction l as [|x l IH]; simpl; auto. now apply insert_amount_sorted.
Qed.

Lemma amounts_sorted_app (a b : list (list N * Q)) :
  amounts_sorted (a ++ b) = true ->
  forall x y, In x a -> In y b -> (snd y <= snd x)%Q.
Proof.
  induction a as [|z a IH]; intros Hs x y Hx Hy; [destruct Hx|].
  simpl in Hs. apply andb_prop in Hs. destruct Hs as [Hall Hs].
  destruct Hx as [<-|Hx]; [|now apply IH].
  rewrite forallb_forall in Hall. apply Qle_bool_iff, Hall.
  apply in_or_app. now right.
Qed.

Lemma nodup_firstn {A : Type} (k : nat) (l : list A) :
  List.NoDup l -> List.NoDup (firstn k l).
Proof.
  revert k. induction l as [|x l IH]; intros [|k] H; simpl; try constructor.
  - inversion H as [|? ? Hnin Hnd]; subst. intros Hin. apply Hnin.
    rewrite <- (firstn_skipn k l). apply in_or_app. now left.
  - inversion H; subst. now apply IH.
Qed.

End Ranking.

(** X19.  The counterparty ranking lists at most five counterparties,
    each once and none with an empty name.  The amount of a listed
    counterparty is the sum of its flows, no counterparty left out has a
    larger amount than a listed one, and a share is the amount over the
    total, or 0 when the total is 0.  The top-5 figure is the sum of the
    shares listed. *)
Theorem counterparty_ranking (field : Txn -> option Q) (txns : list Txn)
        (total : Q) :
  let conc := top_with_share (flows field txns) total in
  (length (top conc) <= 5)%nat
  /\ List.NoDup (map s_name (top conc))
  /\ (forall s, In s (top conc) ->
        PyStr.truthy (s_name s) = true
        /\ (s_amount s
            == sum_of field (List.filter (of_counterparty (s_name s)) txns))%Q
        /\ s_share s = (if negb (Qeq_bool total 0)
                        then s_amount s / total else 0)%Q)
  /\ (forall s k v,
         In s (top conc) -> In (k, v) (flows field txns) ->
         ~ In k (map s_name (top conc)) -> (v <= s_amount s)%Q)
  /\ top5 conc = py_sum (map s_share (top conc)).
Proof.
  intros conc.
  destruct (flows_spec field txns) as (Hnd & Hkeys & Hval).
  set (c := flows field txns) in *.
  set (L := stable_sort (fun a b => Qltb (snd b) (snd a)) c).
  assert (Hperm : Permutation L c) by apply sort_amount_perm.
  assert (Htop : top conc
                 = map (fun item =>
                          {| s_name := fst item; s_amount := snd item;
                             s_share := if negb (Qeq_bool total 0)
                                        then (snd item / total)%Q else 0%Q |})
                       (firstn 5 L)) by reflexivity.
  assert (Hnames : map s_name (top conc) = map fst (firstn 5 L)).
  { rewrite Htop, map_map. reflexivity. }
  assert (Hlen : (length (top conc) <= 5)%nat).
  { rewrite Htop, length_map, length_firstn. lia. }
  split; [exact Hlen|]. split; [|split; [|split]].
  - rewrite Hnames, <- firstn_map. apply nodup_firstn.
    apply (Permutation_NoDup (Permutation_sym (Permutation_map fst Hperm))).
    exact Hnd.
  - intros s Hs. rewrite Htop in Hs. apply in_map_iff in Hs.
    destruct Hs as ([k v] & <- & Hin). cbn [s_name s_amount s_share fst snd].
    assert (Hc : In (k, v) c).
    { apply (Permutation_in _ Hperm).
      rewrite <- (firstn_skipn 5 L). apply in_or_app. now left. }
    assert (Hk : PyStr.truthy k = true).
    { apply Hkeys. apply in_map_iff. exists (k, v). auto. }
    split; [exact Hk|]. split; [|reflexivity].
    rewrite <- (Hval k Hk), (counter_get_in c k v Hnd Hc). reflexivity.
  - intros s k v Hs Hkv Hnot. rewrite Htop in Hs. apply in_map_iff in Hs.
    destruct Hs as ([k' v'] & <- & Hin). cbn [s_amount snd].
    assert (HL : In (k, v) L) by (apply (Permutation_in _ (Permutation_sym Hperm)); auto).
    rewrite <- (firstn_skipn 5 L) in HL. apply in_app_or in HL.
    destruct HL as [HL|HL].
    + exfalso. apply Hnot. rewrite Hnames. apply in_map_iff. exists (k, v). auto.
    + pose proof (sort_amount_sorted c) as Hs. fold L in Hs.
      rewrite <- (firstn_skipn 5 L) in Hs.
      apply (amounts_sorted_app _ _ Hs (k', v') (k, v) Hin HL).
  - change (top5 conc) with (py_sum (map s_share (firstn 5 (top conc)))).
    now rewrite firstn_all2 by exact Hlen.
Qed.

(** ** Counterparty names *)

Section CounterpartyNames.

Lemma forallb_rev_eq (p : N -> bool) (s : list N) :
  forallb p (rev s) = forallb p s.
Proof.
  induction s as [|c s IH]; auto. cbn [rev forallb].
  rewrite forallb_app, IH. cbn [forallb]. rewrite andb_true_r. apply andb_comm.
Qed.

(** [strip] takes spaces off both ends and nothing else. *)
Lemma strip_split (s : list N) :
  exists pre post,
    s = pre ++ PyStr.strip s ++ post
    /\ forallb PyStr.is_space pre = true
    /\ forallb PyStr.is_space post = true.
Proof.
  unfold PyStr.strip, PyStr.rstrip.
  destruct (lstrip_split s) as (pre & Hs & Hpre).
  destruct (lstrip_split (rev (PyStr.lstrip s))) as (p2 & Hr & Hp2).
  exists pre, (rev p2). split; [|split; auto].
  - rewrite <- rev_app_distr, <- Hr, rev_involutive. exact Hs.
  - now rewrite forallb_rev_eq.
Qed.

End CounterpartyNames.

(** X20.  The counterparty of a table cell is the text of the cell
    without the spaces around it, letters unchanged: it is null exactly
    when the cell holds only spaces, and otherwise it is not empty,
    begins and ends with a character that is not a space, and is left
    as it is when normalised again. *)
Theorem normalize_counterparty_trims (s : list N) :
  match _normalize_counterparty s with
  | None => forallb PyStr.is_space s = true
  | Some r =>
      r <> []
      /\ (exists pre post,
             s = pre ++ r ++ post
             /\ forallb PyStr.is_space pre = true
             /\ forallb PyStr.is_space post = true)
      /\ (exists c t t' z,
             r = c :: t /\ r = t' ++ [z]
             /\ PyStr.is_space c = false /\ PyStr.is_space z = false)
      /\ _normalize_counterparty r = Some r
  end.
Proof.
  unfold _normalize_counterparty.
  destruct (strip_split s) as (pre & post & Hs & Hpre & Hpost).
  destruct (PyStr.strip s) as [|c t] eqn:E; cbn [PyStr.truthy negb].
  - rewrite Hs, forallb_app, Hpre. exact Hpost.
  - destruct (strip_ends s c t E) as (Hc & t' & z & Hz & Hsz).
    rewrite E in Hz.
    assert (Hid : PyStr.strip (c :: t) = c :: t)
      by now apply (strip_id _ t t' c z).
    rewrite Hid. split; [discriminate|]. split; [exists pre, post; auto|].
    split; [exists c, t, t', z; auto|].
    rewrite Hid. cbn [PyStr.truthy negb]. now rewrite Hid.
Qed.

(** ** [parse] *)

Section Parse.

Lemma run_twice {A : Type} (c : exc A) (default : A) (d b : Q) :
  run 2 d b (fun _ => c) default
  = match c with
    | Ok v => (Some v, [])
    | Raise _ => (Some default, [d])
    end.
Proof. destruct c; reflexivity. Qed.

Lemma one_column_free (rs : list (list cell)) :
  is_free_text (fst (normalize_one_column {| columns := [u "raw"]; rows := rs |}))
  = true.
Proof. reflexivity. Qed.


End Parse.

(** X21.  A text, like a frame of one column, is parsed at the first
    attempt: [parse] never sleeps and never falls back to the empty
    default on it.  The role map has the description as its only role,
    and the transactions are those of the line path. *)
Theorem parse_text_first_attempt (mp : Q) :
  (forall raw,
      exists r,
        parse (PText raw) mp = (Some (Some r), [])
        /\ parse_text_transactions raw = Ok (r_transactions r)
        /\ r_columns r = snd (normalize_one_column (_to_dataframe_text raw))
        /\ r_cashflow r = _analyze_cashflow (r_transactions r)
        /\ r_balances r = _analyze_balances (r_transactions r) mp)
  /\ (forall rs,
         exists r all,
           parse (POneColumn rs) mp = (Some (Some r), [])
           /\ map_exc free_txn rs = Ok all
           /\ r_transactions r = List.filter free_keep all).
Proof.
  split.
  - intros raw. unfold parse. rewrite run_twice.
    unfold parse_body, parse_text_transactions.
    cbn [normalize_one_column mbind exc_bind bind snd].
    destruct (extract_shape
                {| columns := [u "raw"]; rows := rows (_to_dataframe_text raw) |}
                {| c_date := None; c_debit := None; c_credit := None;
                   c_balance := None; c_counterparty := None;
                   c_description := Some (u "raw") |}) as (all & _ & Hout).
    rewrite Hout. cbn [mbind exc_bind bind mret exc_ret].
    eexists. split; [reflexivity|]. cbn. repeat split; reflexivity.
  - intros rs. unfold parse. rewrite run_twice.
    unfold parse_body.
    cbn [normalize_one_column mbind exc_bind bind snd rows].
    destruct (extract_shape
                {| columns := [u "raw"]; rows := rs |}
                {| c_date := None; c_debit := None; c_credit := None;
                   c_balance := None; c_counterparty := None;
                   c_description := Some (u "raw") |}) as (all & Hall & Hout).
    rewrite Hout. cbn [mbind exc_bind bind mret exc_ret].
    eexists. exists all. split; [reflexivity|]. split; [exact Hall|reflexivity].
Qed.



(** ** The header row *)

Section HeaderRow.

Local Open Scope nat_scope.

Lemma find_header_spec (preview : list (list cell)) :
  forall i,
    match find_header i preview with
    | Some k =>
        i <= k /\ k - i < length preview
        /\ 2 <= header_hits (nth (k - i) preview [])
        /\ forall j, j < k - i -> header_hits (nth j preview []) < 2
    | None => forall j, j < length preview -> header_hits (nth j preview []) < 2
    end.
Proof.
  induction preview as [|row preview IH]; intros i; cbn [find_header].
  - intros j Hj. simpl in Hj. lia.
  - destruct (Nat.leb_spec 2 (header_hits row)) as [Hge|Hlt].
    + rewrite Nat.sub_diag. cbn [nth length]. repeat split; auto; lia.
    + specialize (IH (S i)). destruct (find_header (S i) preview) as [k|].
      * destruct IH as (Hik & Hlen & Hhit & Hbefore).
        replace (k - i) with (S (k - S i)) by lia. cbn [nth length].
        repeat split; auto; try lia.
        intros [|j] Hj; [exact Hlt|]. apply Hbefore. lia.
      * intros [|j] Hj; [exact Hlt|]. cbn [nth]. apply IH.
        simpl in Hj. lia.
Qed.

End HeaderRow.

(** X23.  In a table the header is the first of the first ten rows that
    holds two of the header keywords, and the first row when there is
    none; every row up to the header, the header included, is left out
    of the data, and the frame gets as many column names as it has
    columns. *)
Theorem table_frame_header (ncols : nat) (row0 : list cell)
        (others : list (list cell)) :
  let rs := row0 :: others in
  exists idx,
    (idx < 10)%nat /\ (idx <= length others)%nat
    /\ rows (table_frame ncols row0 others) = skipn idx others
    /\ length (columns (table_frame ncols row0 others)) = ncols
    /\ ((2 <= header_hits (nth idx rs []))%nat
        /\ (forall j, (j < idx)%nat -> (header_hits (nth j rs []) < 2)%nat)
        \/ idx = 0%nat
           /\ forall j, (j < 10)%nat -> (j < length rs)%nat ->
                        (header_hits (nth j rs []) < 2)%nat).
Proof.
  intros rs. unfold table_frame. fold rs. cbn [rows columns].
  assert (Hcols : forall h, length (_make_unique_headers h ncols) = ncols).
  { intros h. unfold _make_unique_headers.
    now destruct (unique_loop_shape h ncols 0%nat ∅). }
  pose proof (find_header_spec (firstn 10 rs) 0%nat) as H.
  unfold header_row_idx.
  destruct (find_header 0 (firstn 10 rs)) as [k|].
  - destruct H as (_ & Hlen & Hhit & Hbefore).
    rewrite Nat.sub_0_r in *. rewrite length_firstn in Hlen.
    exists k. subst rs. cbn [length] in *.
    split; [lia|]. split; [lia|]. split; [reflexivity|]. split; [apply Hcols|].
    left. split.
    + rewrite nth_firstn in Hhit.
      destruct (Nat.ltb_spec k 10); [exact Hhit|lia].
    + intros j Hj. specialize (Hbefore j Hj). rewrite nth_firstn in Hbefore.
      destruct (Nat.ltb_spec j 10); [exact Hbefore|lia].
  - exists 0%nat. split; [lia|]. split; [lia|]. split; [reflexivity|].
    split; [apply Hcols|]. right. split; auto.
    intros j Hj Hl. specialize (H j).
    rewrite length_firstn, nth_firstn in H.
    destruct (Nat.ltb_spec j 10); [|lia]. apply H. lia.
Qed.
